(** * Scoring utilities of the gamified playground ([src/utils/scoring.js])

    A shallow embedding of the scoring module and the properties of its
    exported functions [calculateScore], [getLeaderboard],
    [calculateReadabilityScore] and [getChallengeScore].

    Conventions of the embedding.
    - A JavaScript string is the list of its UTF-16 code units ([jsstring]).
    - A JavaScript number is a [num]: [NaN], one of the two infinities, or a
      finite value held as an exact rational.  Division by zero, the
      propagation of [NaN] and the comparisons with [NaN] follow IEEE 754 as
      JavaScript does.  The rounding of binary64 is [Binary64.b64], round to
      nearest, ties to even, on 53 bits; it is applied where the source
      computes with averages and with the score shown by the score board
      ([fsub], [fmul], [fdiv]).  The ratios of lengths and of counts and the
      factors are compared with their thresholds as exact rationals (a
      decimal literal such as [1.1] stands for the rational 11/10).  The sign
      of zero is not modelled.
    - Quantities that are integers on every path of the source (counts,
      bonuses, the readability and challenge scores) are held in [Z].
    - Regular expressions are terms of the type [regex], run by a
      backtracking matcher that follows the ECMAScript semantics for the
      constructs this module uses. *)

From Stdlib Require Import List Bool Arith ZArith NArith QArith Qabs Qround Qminmax Lia Lqa
  String Ascii Permutation Sorted.
Import ListNotations.

Local Open Scope Z_scope.

(** ** Strings *)

Module JsString.

Local Open Scope N_scope.

(** A UTF-16 code unit. *)
Definition char := N.

Definition jsstring := list char.

(** The code units of an ASCII literal of the source. *)
Fixpoint lit (s : string) : jsstring :=
  match s with
  | EmptyString => []
  | String a s' => N_of_ascii a :: lit s'
  end.

Definition char_eqb (a b : char) : bool := N.eqb a b.

Fixpoint str_eqb (s t : jsstring) : bool :=
  match s, t with
  | [], [] => true
  | a :: s', b :: t' => char_eqb a b && str_eqb s' t'
  | _, _ => false
  end.

Definition between (lo hi c : char) : bool := (N.leb lo c && N.leb c hi)%bool.

(** [WhiteSpace] and [LineTerminator] of ECMAScript: what [\s] matches and
    what [trim] removes. *)
Definition is_space (c : char) : bool :=
  (between 9 13 c || N.eqb c 32 || N.eqb c 160 || N.eqb c 5760
   || between 8192 8202 c || N.eqb c 8232 || N.eqb c 8233 || N.eqb c 8239
   || N.eqb c 8287 || N.eqb c 12288 || N.eqb c 65279)%bool.

Definition is_upper (c : char) : bool := between 65 90 c.
Definition is_lower (c : char) : bool := between 97 122 c.
Definition is_digit (c : char) : bool := between 48 57 c.
Definition is_alpha (c : char) : bool := (is_upper c || is_lower c)%bool.

(** [\w] : [[A-Za-z0-9_]]. *)
Definition is_word (c : char) : bool :=
  (is_alpha c || is_digit c || N.eqb c 95)%bool.

Definition NL : char := 10.

(** [s.length] *)
Definition len (s : jsstring) : Z := Z.of_nat (List.length s).

(** [s.startsWith(p)] *)
Fixpoint startsWith (s p : jsstring) : bool :=
  match p, s with
  | [], _ => true
  | b :: p', a :: s' => char_eqb a b && startsWith s' p'
  | _ :: _, [] => false
  end.

(** [s.endsWith(p)] *)
Definition endsWith (s p : jsstring) : bool := startsWith (rev s) (rev p).

(** [s.trimStart()] *)
Fixpoint trimStart (s : jsstring) : jsstring :=
  match s with
  | c :: s' => if is_space c then trimStart s' else s
  | [] => []
  end.

(** [s.trim()] *)
Definition trim (s : jsstring) : jsstring :=
  rev (trimStart (rev (trimStart s))).

(** [s.split('\n')]: the pieces between the line feeds; never empty, the
    empty string gives one empty piece. *)
Fixpoint split_lines_aux (cur : jsstring) (s : jsstring) : list jsstring :=
  match s with
  | [] => [rev cur]
  | c :: s' =>
      if char_eqb c NL then rev cur :: split_lines_aux [] s'
      else split_lines_aux (c :: cur) s'
  end.

Definition split_lines (s : jsstring) : list jsstring := split_lines_aux [] s.

(** [s.includes(c)] for a one-unit needle. *)
Definition includes_char (s : jsstring) (c : char) : bool :=
  existsb (char_eqb c) s.

End JsString.
Import JsString.

(** ** Numbers *)

Module JsNum.

Inductive num : Type :=
| NaN
| PInf
| NInf
| Fin (q : Q).

Definition fin (q : Q) : num := Fin (Qred q).

Definition of_Z (z : Z) : num := Fin (inject_Z z).

(** A decimal literal [n/d] of the source. *)
Definition dec (n : Z) (d : positive) : num := fin (n # d).

Definition Qsign (q : Q) : comparison := Z.compare (Qnum q) 0.

Definition neg (x : num) : num :=
  match x with
  | NaN => NaN
  | PInf => NInf
  | NInf => PInf
  | Fin q => fin (Qopp q)
  end.

Definition abs (x : num) : num :=
  match x with
  | NaN => NaN
  | PInf | NInf => PInf
  | Fin q => fin (Qabs q)
  end.

Definition add (x y : num) : num :=
  match x, y with
  | NaN, _ | _, NaN => NaN
  | PInf, NInf | NInf, PInf => NaN
  | PInf, _ | _, PInf => PInf
  | NInf, _ | _, NInf => NInf
  | Fin a, Fin b => fin (Qplus a b)
  end.

Definition sub (x y : num) : num := add x (neg y).

(** An infinity times a finite value of the given sign. *)
Definition inf_times (positive_inf : bool) (s : comparison) : num :=
  match s with
  | Eq => NaN
  | Gt => if positive_inf then PInf else NInf
  | Lt => if positive_inf then NInf else PInf
  end.

Definition mul (x y : num) : num :=
  match x, y with
  | NaN, _ | _, NaN => NaN
  | PInf, PInf | NInf, NInf => PInf
  | PInf, NInf | NInf, PInf => NInf
  | PInf, Fin b => inf_times true (Qsign b)
  | NInf, Fin b => inf_times false (Qsign b)
  | Fin a, PInf => inf_times true (Qsign a)
  | Fin a, NInf => inf_times false (Qsign a)
  | Fin a, Fin b => fin (Qmult a b)
  end.

(** Division; the divisors of this module are lengths and counts, so a
    zero divisor is the positive zero. *)
Definition div (x y : num) : num :=
  match x, y with
  | NaN, _ | _, NaN => NaN
  | (PInf | NInf), (PInf | NInf) => NaN
  | PInf, Fin b => match Qsign b with Lt => NInf | _ => PInf end
  | NInf, Fin b => match Qsign b with Lt => PInf | _ => NInf end
  | Fin _, (PInf | NInf) => Fin 0
  | Fin a, Fin b =>
      match Qsign b with
      | Eq => match Qsign a with Eq => NaN | Gt => PInf | Lt => NInf end
      | _ => fin (Qdiv a b)
      end
  end.

(** [x < y]; false as soon as one side is [NaN]. *)
Definition ltb (x y : num) : bool :=
  match x, y with
  | NaN, _ | _, NaN => false
  | _, NInf => false
  | PInf, _ => false
  | NInf, _ => true
  | _, PInf => true
  | Fin a, Fin b => match Qcompare a b with Lt => true | _ => false end
  end.

Definition gtb (x y : num) : bool := ltb y x.

(** [x <= y]; false as soon as one side is [NaN]. *)
Definition leb (x y : num) : bool :=
  match x, y with
  | NaN, _ | _, NaN => false
  | NInf, _ => true
  | _, PInf => true
  | _, NInf => false
  | PInf, _ => false
  | Fin a, Fin b => match Qcompare a b with Gt => false | _ => true end
  end.

(** [Math.round] of a finite value: the integer nearest to it, ties
    towards positive infinity. *)
Definition Qround_half_up (q : Q) : Z := Qfloor (q + (1 # 2)).

(** [Math.round] *)
Definition Math_round (x : num) : num :=
  match x with
  | Fin q => of_Z (Qround_half_up q)
  | _ => x
  end.

Definition is_finite (x : num) : bool :=
  match x with Fin _ => true | _ => false end.

End JsNum.
Import JsNum.

(** ** Binary64 rounding *)

Module Binary64.

(** [2^k] for an integer [k]. *)
Definition pow2 (k : Z) : Q :=
  if 0 <=? k then inject_Z (2 ^ k) else 1 # Z.to_pos (2 ^ (- k)).

(** The integer [e] with [2^e <= n/d < 2^(e+1)]. *)
Definition floor_log2 (n d : positive) : Z :=
  let k := Z.log2 (Z.pos n) - Z.log2 (Z.pos d) in
  if Qle_bool (pow2 k) (Z.pos n # d) then k else k - 1.

(** The integer nearest to [N / D], a tie going to the even one. *)
Definition round_half_even (N D : Z) : Z :=
  let f := N / D in
  let r := N mod D in
  match 2 * r ?= D with
  | Lt => f
  | Gt => f + 1
  | Eq => if Z.even f then f else f + 1
  end.

(** The binary64 number nearest to the positive rational [n/d]: a multiple
    of [2^ex] where [ex] leaves 53 bits to the significand and is at least
    -1074 (the subnormal numbers); infinity from [2^1024] on. *)
Definition rn_pos (n d : positive) : num :=
  let e := floor_log2 n d in
  let ex := Z.max (e - 52) (-1074) in
  let m :=
    if 0 <=? ex then round_half_even (Z.pos n) (Z.pos d * 2 ^ ex)
    else round_half_even (Z.pos n * 2 ^ (- ex)) (Z.pos d) in
  if Qle_bool (pow2 1024) (inject_Z m * pow2 ex) then PInf
  else fin (inject_Z m * pow2 ex).

Definition rn (q : Q) : num :=
  match Qnum q with
  | Z0 => Fin 0
  | Z.pos n => rn_pos n (Qden q)
  | Z.neg n => neg (rn_pos n (Qden q))
  end.

(** The binary64 number a result is rounded to. *)
Definition b64 (x : num) : num :=
  match x with
  | Fin q => rn q
  | _ => x
  end.

(** The operations of binary64: the exact result, rounded. *)
Definition fsub (x y : num) : num := b64 (sub x y).
Definition fmul (x y : num) : num := b64 (mul x y).
Definition fdiv (x y : num) : num := b64 (div x y).

(** The integer [Math.round] returns for a finite argument.  The products
    it is applied to are finite, a string having fewer than [2^53] units;
    0 stands for the other arguments. *)
Definition rounded (x : num) : Z :=
  match x with
  | Fin q => Qround_half_up q
  | _ => 0
  end.

(** A number that is neither [NaN] nor below zero. *)
Definition not_negative (x : num) : Prop :=
  match x with
  | Fin q => (0 <= q)%Q
  | PInf => True
  | _ => False
  end.

End Binary64.
Import Binary64.

(** ** Regular expressions *)

Module Regex.

(** The constructs of the regular expressions of the source.  Every
    quantifier there applies to a single character class, so [Star] and
    [Plus] take a class; both are greedy.  [Group i r] is the [i]-th pair of
    capturing parentheses. *)
Inductive regex : Type :=
| Eps
| Chr (c : char)
| Cls (p : char -> bool)
| Seq (r1 r2 : regex)
| Alt (r1 r2 : regex)
| Star (p : char -> bool)
| Plus (p : char -> bool)
| WordB
| Group (i : nat) (r : regex).

(** The state of a match in progress: the unit before the current
    position (for [\b]), the input from the current position on, the
    current index and the captures made so far. *)
Record mstate : Type := MState {
  st_prev : option char;
  st_rest : jsstring;
  st_pos : nat;
  st_caps : list (nat * jsstring)
}.

Definition cont := mstate -> option mstate.

Definition word_at (c : option char) : bool :=
  match c with Some a => is_word a | None => false end.

(** Consume one unit satisfying [p]. *)
Definition step (p : char -> bool) (k : cont) (st : mstate) : option mstate :=
  match st_rest st with
  | a :: s' =>
      if p a then k (MState (Some a) s' (S (st_pos st)) (st_caps st)) else None
  | [] => None
  end.

(** Greedy [p]*: take the longest run first, give units back one at a time
    while the continuation fails. *)
Fixpoint star (p : char -> bool) (k : cont) (pv : option char) (s : jsstring)
    (i : nat) (cs : list (nat * jsstring)) : option mstate :=
  match s with
  | a :: s' =>
      if p a then
        match star p k (Some a) s' (S i) cs with
        | Some r => Some r
        | None => k (MState pv s i cs)
        end
      else k (MState pv s i cs)
  | [] => k (MState pv s i cs)
  end.

Definition star_st (p : char -> bool) (k : cont) (st : mstate) : option mstate :=
  star p k (st_prev st) (st_rest st) (st_pos st) (st_caps st).

(** The backtracking matcher, in continuation-passing style: [run r k st]
    is the first way, in the priority order of ECMAScript, to match [r] at
    [st] so that the continuation [k] succeeds on what follows. *)
Fixpoint run (r : regex) (k : cont) (st : mstate) : option mstate :=
  match r with
  | Eps => k st
  | Chr c => step (char_eqb c) k st
  | Cls p => step p k st
  | Seq r1 r2 => run r1 (run r2 k) st
  | Alt r1 r2 =>
      match run r1 k st with
      | Some x => Some x
      | None => run r2 k st
      end
  | Star p => star_st p k st
  | Plus p => step p (star_st p k) st
  | WordB =>
      if xorb (word_at (st_prev st)) (word_at (hd_error (st_rest st)))
      then k st else None
  | Group i r' =>
      run r'
        (fun st' =>
           k (MState (st_prev st') (st_rest st') (st_pos st')
                ((i, firstn (st_pos st' - st_pos st) (st_rest st))
                   :: st_caps st')))
        st
  end.

(** A successful match: the matched text and the captures. *)
Record mresult : Type := MResult {
  m_text : jsstring;
  m_caps : list (nat * jsstring)
}.

(** Capture [i] of a match ([match[i]]); the empty string stands for a
    group that did not take part. *)
Fixpoint capture (i : nat) (cs : list (nat * jsstring)) : jsstring :=
  match cs with
  | [] => []
  | (j, s) :: cs' => if Nat.eqb i j then s else capture i cs'
  end.

(** One attempt at index [i]; the length of the match and its result. *)
Definition match_here (r : regex) (pv : option char) (s : jsstring) (i : nat)
  : option (nat * mresult) :=
  match run r Some (MState pv s i []) with
  | Some st' =>
      let l := (st_pos st' - i)%nat in
      Some (l, MResult (firstn l s) (st_caps st'))
  | None => None
  end.

(** All the matches of a regular expression with the [g] flag, left to
    right ([s.match(r)], [s.matchAll(r)]).  After a match of length [l] at
    index [i] the search resumes at [i + l], or at [i + 1] when [l = 0];
    [skip] counts the units still covered by the last match. *)
Fixpoint match_all_from (r : regex) (pv : option char) (s : jsstring)
    (i skip : nat) : list mresult :=
  match skip, s with
  | S n, a :: s' => match_all_from r (Some a) s' (S i) n
  | S _, [] => []
  | O, _ =>
      match match_here r pv s i, s with
      | Some (l, res), a :: s' =>
          res :: match_all_from r (Some a) s' (S i) (pred l)
      | Some (_, res), [] => [res]
      | None, a :: s' => match_all_from r (Some a) s' (S i) 0
      | None, [] => []
      end
  end.

Definition match_all (r : regex) (s : jsstring) : list mresult :=
  match_all_from r None s 0 0.

(** [(s.match(r) || []).length] *)
Definition count_matches (r : regex) (s : jsstring) : Z :=
  Z.of_nat (List.length (match_all r s)).

(** [r.test(s)] *)
Definition test (r : regex) (s : jsstring) : bool :=
  match match_all r s with [] => false | _ :: _ => true end.

(** [s.split(r)] for a regular expression without capture: at each index
    [q] past the start [p] of the current piece the separator is tried; a
    match ending at [e <> p] closes the piece and the next one starts at
    [e].  [cur] is the current piece, reversed. *)
Fixpoint split_from (r : regex) (pv : option char) (s : jsstring)
    (i skip : nat) (cur : jsstring) : list jsstring :=
  match s with
  | [] => [rev cur]
  | a :: s' =>
      match skip with
      | S n => split_from r (Some a) s' (S i) n []
      | O =>
          match match_here r pv s i with
          | None => split_from r (Some a) s' (S i) 0 (a :: cur)
          | Some (O, _) =>
              match cur with
              | [] => split_from r (Some a) s' (S i) 0 [a]
              | _ :: _ => rev cur :: split_from r (Some a) s' (S i) 0 [a]
              end
          | Some (S n, _) => rev cur :: split_from r (Some a) s' (S i) n []
          end
      end
  end.

Definition split (r : regex) (s : jsstring) : list jsstring :=
  match s with
  | [] => match match_here r None [] 0 with Some _ => [] | None => [[]] end
  | _ :: _ => split_from r None s 0 0 []
  end.

(** A literal of the pattern, unit by unit. *)
Fixpoint Lit_units (s : jsstring) : regex :=
  match s with
  | [] => Eps
  | c :: s' => Seq (Chr c) (Lit_units s')
  end.

Definition Lit (s : string) : regex := Lit_units (lit s).

(** A concatenation and a disjunction of several terms. *)
Definition seqs (rs : list regex) : regex := fold_right Seq Eps rs.

Fixpoint alts (rs : list regex) : regex :=
  match rs with
  | [] => Eps
  | [r] => r
  | r :: rs' => Alt r (alts rs')
  end.

(** The class of one unit, and the complement of a class. *)
Definition one (s : string) (c : char) : bool :=
  match lit s with
  | [a] => char_eqb c a
  | _ => false
  end.

Definition none_of (p : char -> bool) (c : char) : bool := negb (p c).

End Regex.
Import Regex.

(** ** The regular expressions of the module *)

Module Patterns.

(** Each definition quotes the pattern of the source it stands for; in
    these quotations a blank separates a star from a closing parenthesis
    that follows it, and is not part of the pattern. *)

Local Open Scope string_scope.

(** [[a-zA-Z_$]] and [[a-zA-Z0-9_$]] *)
Definition ident_start (c : char) : bool :=
  (is_alpha c || one "_" c || one "$" c)%bool.
Definition ident_char (c : char) : bool :=
  (is_alpha c || is_digit c || one "_" c || one "$" c)%bool.

(** [[a-zA-Z0-9]] *)
Definition alnum (c : char) : bool := (is_alpha c || is_digit c)%bool.

Definition brace (c : char) : bool := (one "{" c || one "}" c)%bool.

(** [(var|let|const)] as group 1 *)
Definition decl_keyword : regex :=
  Group 1 (alts [Lit "var"; Lit "let"; Lit "const"]).

(** [/\b(var|let|const)\s+([a-zA-Z_$][a-zA-Z0-9_$]* )\b/g] *)
Definition varDeclarationPattern : regex :=
  seqs [WordB; decl_keyword; Plus is_space;
        Group 2 (Seq (Cls ident_start) (Star ident_char)); WordB].

(** [/\s+/] *)
Definition spaces : regex := Plus is_space.

(** [/if\s*\(\s*(false|0)\s*\)/g] *)
Definition unreachableBlockPattern : regex :=
  seqs [Lit "if"; Star is_space; Chr (N_of_ascii "("); Star is_space;
        Group 1 (alts [Lit "false"; Lit "0"]); Star is_space;
        Chr (N_of_ascii ")")].

(** [/{\s*}/g] *)
Definition emptyBlockPattern : regex :=
  seqs [Lit "{"; Star is_space; Lit "}"].

(** [/{/g] and [/}/g] *)
Definition openBracePattern : regex := Lit "{".
Definition closeBracePattern : regex := Lit "}".

(** [/eval\s*\(/g] *)
Definition evalPattern : regex :=
  seqs [Lit "eval"; Star is_space; Lit "("].

(** [/new\s+Function\s*\(/g] *)
Definition functionConstructorPattern : regex :=
  seqs [Lit "new"; Plus is_space; Lit "Function"; Star is_space; Lit "("].

(** [/\b(var|let|const)\s+([a-zA-Z])\b/g] *)
Definition singleCharVarPattern : regex :=
  seqs [WordB; decl_keyword; Plus is_space; Group 2 (Cls is_alpha); WordB].

(** [/\{[^\{\}]*\{[^\{\}]*\{[^\{\}]*\{/g] *)
Definition deepNestingPattern : regex :=
  seqs [Lit "{"; Star (none_of brace); Lit "{"; Star (none_of brace);
        Lit "{"; Star (none_of brace); Lit "{"].

(** [/\b(var|let|const)\s+([a-z][a-zA-Z0-9]*[A-Z][a-zA-Z0-9]*|[a-zA-Z]+_[a-zA-Z]+)\b/g] *)
Definition descriptiveVarPattern : regex :=
  seqs [WordB; decl_keyword; Plus is_space;
        Group 2
          (Alt (seqs [Cls is_lower; Star alnum; Cls is_upper; Star alnum])
               (seqs [Plus is_alpha; Lit "_"; Plus is_alpha]));
        WordB].

(** [/function\s+([a-zA-Z_$][a-zA-Z0-9_$]* )\s*\([^)]*\)\s*\{([^}]* )\}/g] *)
Definition functionPattern : regex :=
  seqs [Lit "function"; Plus is_space;
        Group 1 (Seq (Cls ident_start) (Star ident_char));
        Star is_space; Lit "("; Star (none_of (one ")")); Lit ")";
        Star is_space; Lit "{"; Group 2 (Star (none_of (one "}"))); Lit "}"].

(** [/\([^)]*\)\s*=>\s*\{([^}]* )\}/g] *)
Definition arrowFunctionPattern : regex :=
  seqs [Lit "("; Star (none_of (one ")")); Lit ")"; Star is_space; Lit "=>";
        Star is_space; Lit "{"; Group 1 (Star (none_of (one "}"))); Lit "}"].

(** [/\n/g] *)
Definition newlinePattern : regex := Chr NL.

(** [/[A-Z]/] *)
Definition upperPattern : regex := Cls is_upper.

(** The class of [/[\s\(\)\{\}\[\]\;\,\.\+\-\*\/\=\!\<\>\&\|\^\%\?\:\~]+/] *)
Definition is_separator (c : char) : bool :=
  (is_space c
   || existsb (char_eqb c) (lit "(){}[];,.+-*/=!<>&|^%?:~"))%bool.

Definition tokenSeparatorPattern : regex := Plus is_separator.

End Patterns.
Import Patterns.

(** ** Values *)

(** The values an argument of the exported functions can be.  [VObject]
    stands for any object or function. *)
Inductive value : Type :=
| VUndefined
| VNull
| VBool (b : bool)
| VNum (n : num)
| VStr (s : jsstring)
| VObject.

(** [ToBoolean] *)
Definition to_boolean (v : value) : bool :=
  match v with
  | VUndefined | VNull => false
  | VBool b => b
  | VNum NaN => false
  | VNum (Fin q) => negb (Qeq_bool q 0)
  | VNum _ => true
  | VStr s => match s with [] => false | _ :: _ => true end
  | VObject => true
  end.

(** [typeof v === 'string'] *)
Definition is_string (v : value) : bool :=
  match v with VStr _ => true | _ => false end.

(** Comparisons of finite values. *)
Definition Qltb (a b : Q) : bool := negb (Qle_bool b a).
Definition Qgtb (a b : Q) : bool := Qltb b a.

(** ** The scoring module *)

(** The own properties of the object literal [TRANSFORMATION_POINTS]. *)
Definition TRANSFORMATION_POINTS : list (jsstring * Z) :=
  [ (lit "format", 10);
    (lit "minify", 20);
    (lit "es6-to-es5", 30);
    (lit "jsx-to-js", 40);
    (lit "rename-variables", 25);
    (lit "flatten-control-flow", 35);
    (lit "remove-dead-code", 30) ].

(** The properties an object literal inherits from [Object.prototype]
    (ECMAScript, the properties of the Object prototype object).  Each of
    them reads as a function, or as the prototype object itself for
    [__proto__]. *)
Definition Object_prototype_keys : list jsstring :=
  map lit
    [ "constructor"; "hasOwnProperty"; "isPrototypeOf";
      "propertyIsEnumerable"; "toLocaleString"; "toString"; "valueOf";
      "__proto__"; "__defineGetter__"; "__defineSetter__";
      "__lookupGetter__"; "__lookupSetter__" ]%string.

(** What the property read [TRANSFORMATION_POINTS[transformerId]] finds. *)
Inductive property : Type :=
| Own (points : Z)
| Inherited
| Absent.

Fixpoint own_property (table : list (jsstring * Z)) (key : jsstring)
  : option Z :=
  match table with
  | [] => None
  | (k, v) :: table' =>
      if str_eqb k key then Some v else own_property table' key
  end.

Definition get_TRANSFORMATION_POINTS (transformerId : jsstring) : property :=
  match own_property TRANSFORMATION_POINTS transformerId with
  | Some v => Own v
  | None =>
      if existsb (str_eqb transformerId) Object_prototype_keys
      then Inherited else Absent
  end.

(** [TRANSFORMATION_POINTS[transformerId] || 5], as the number it stands
    for in the product of [calculateScore].  An own property is a number,
    kept unless it is zero; [undefined] gives way to 5; an inherited
    property is an object, which is truthy and is kept, and which the
    multiplication converts to [NaN]. *)
Definition basePoints (transformerId : jsstring) : num :=
  match get_TRANSFORMATION_POINTS transformerId with
  | Own v => if to_boolean (VNum (of_Z v)) then of_Z v else of_Z 5
  | Inherited => NaN
  | Absent => of_Z 5
  end.

(** [calculateComplexityFactor] *)
Definition lengthFactor_of (originalLength : num) : num :=
  if gtb originalLength (of_Z 1000) then dec 15 10
  else if gtb originalLength (of_Z 500) then dec 125 100
  else if gtb originalLength (of_Z 200) then dec 11 10
  else dec 10 10.

Definition changeFactor_of (changePercentage : num) : num :=
  if gtb changePercentage (dec 5 10) then dec 15 10
  else if gtb changePercentage (dec 3 10) then dec 13 10
  else if gtb changePercentage (dec 1 10) then dec 11 10
  else dec 10 10.

Definition calculateComplexityFactor (originalCode transformedCode : jsstring)
  : num :=
  let originalLength := of_Z (len originalCode) in
  let transformedLength := of_Z (len transformedCode) in
  let lengthFactor := lengthFactor_of originalLength in
  let changePercentage :=
    div (abs (sub transformedLength originalLength)) originalLength in
  let changeFactor := changeFactor_of changePercentage in
  mul lengthFactor changeFactor.

(** [calculateMaxNestingLevel] *)
Definition nesting_step (st : Z * Z) (line : jsstring) : Z * Z :=
  let '(currentLevel, maxLevel) := st in
  let trimmed := trim line in
  let openBraces := count_matches openBracePattern trimmed in
  let closeBraces := count_matches closeBracePattern trimmed in
  let currentLevel := currentLevel + (openBraces - closeBraces) in
  (currentLevel, Z.max maxLevel currentLevel).

Definition calculateMaxNestingLevel (code : jsstring) : Z :=
  snd (fold_left nesting_step (split_lines code) (0, 0)).

(** [countOccurrences]: the loop visits, in increasing order, every index
    at which [searchStr] occurs, overlapping occurrences included, since
    each search resumes one unit after the last index found.  It is
    called with non-empty literals only. *)
Fixpoint countOccurrences (str searchStr : jsstring) : Z :=
  match str with
  | [] => 0
  | _ :: str' =>
      (if startsWith str searchStr then 1 else 0)
      + countOccurrences str' searchStr
  end.

(** [countIndentationIssues] *)
Definition indentation_step (st : Z * Z) (line : jsstring) : Z * Z :=
  let '(issues, expectedIndent) := st in
  let trimmed := trim line in
  match trimmed with
  | [] => st
  | _ :: _ =>
      let actualIndent := len line - len (trimStart line) in
      let expectedSpaces := expectedIndent * 2 in
      let issues :=
        if negb (actualIndent =? expectedSpaces) then issues + 1 else issues in
      let expectedIndent :=
        if endsWith trimmed (lit "{") then expectedIndent + 1
        else if startsWith trimmed (lit "}") then Z.max 0 (expectedIndent - 1)
        else expectedIndent in
      (issues, expectedIndent)
  end.

Definition countIndentationIssues (code : jsstring) : Z :=
  fst (fold_left indentation_step (split_lines code) (0, 0)).

(** The names declared in a piece of code, as the [rename-variables] case
    extracts them: the matches of the declaration pattern, each split on
    white space, the second piece kept. *)
Definition declared_names (code : jsstring) : list jsstring :=
  let varDeclarations := map m_text (match_all varDeclarationPattern code) in
  map (fun decl => nth 1 (Regex.split spaces decl) []) varDeclarations.

Definition total_length (names : list jsstring) : Z :=
  fold_left (fun sum name => sum + len name) names 0.

(** [names.length > 0 ? names.reduce(...) / names.length : 0]; the guard
    keeps the quotient finite.  This is the exact quotient of the two
    integers; the number the source holds is its rounding to binary64,
    [b64 (Fin (average_length names))]. *)
Definition average_length (names : list jsstring) : Q :=
  if Z.of_nat (List.length names) >? 0
  then inject_Z (total_length names) / inject_Z (Z.of_nat (List.length names))
  else 0.

Definition single_letter_count (names : list jsstring) : Z :=
  Z.of_nat (List.length (filter (fun name => len name =? 1) names)).

(** The size reduction [(original.length - transformed.length) /
    original.length] of the [minify] and [remove-dead-code] cases. *)
Definition size_reduction (originalCode transformedCode : jsstring) : num :=
  div (sub (of_Z (len originalCode)) (of_Z (len transformedCode)))
      (of_Z (len originalCode)).

(** [calculateBonusPoints]; the [switch] compares with [===], one case at
    a time. *)
Definition calculateBonusPoints
    (originalCode transformedCode transformerId : jsstring) : Z :=
  let bonus := 0 in
  if str_eqb transformerId (lit "format") then
    let originalIndentation := countIndentationIssues originalCode in
    let transformedIndentation := countIndentationIssues transformedCode in
    if transformedIndentation <? originalIndentation
    then bonus + (originalIndentation - transformedIndentation) * 2
    else bonus
  else if str_eqb transformerId (lit "minify") then
    let sizeReduction := size_reduction originalCode transformedCode in
    if gtb sizeReduction (dec 5 10) then bonus + 30
    else if gtb sizeReduction (dec 3 10) then bonus + 20
    else if gtb sizeReduction (dec 1 10) then bonus + 10
    else bonus
  else if str_eqb transformerId (lit "es6-to-es5") then
    let arrowFunctionsConverted :=
      countOccurrences originalCode (lit "=>")
      - countOccurrences transformedCode (lit "=>") in
    let letConstConverted :=
      (countOccurrences originalCode (lit "let ")
       + countOccurrences originalCode (lit "const "))
      - (countOccurrences transformedCode (lit "let ")
         + countOccurrences transformedCode (lit "const ")) in
    bonus + arrowFunctionsConverted * 5 + letConstConverted * 3
  else if str_eqb transformerId (lit "jsx-to-js") then
    let jsxElementsConverted :=
      countOccurrences originalCode (lit "<")
      - countOccurrences transformedCode (lit "<") in
    bonus + jsxElementsConverted * 5
  else if str_eqb transformerId (lit "rename-variables") then
    let originalVarNames := declared_names originalCode in
    let transformedVarNames := declared_names transformedCode in
    let originalAvgLength := b64 (Fin (average_length originalVarNames)) in
    let transformedAvgLength :=
      b64 (Fin (average_length transformedVarNames)) in
    let bonus :=
      if gtb transformedAvgLength originalAvgLength then
        let improvement := fsub transformedAvgLength originalAvgLength in
        bonus + rounded (fmul improvement (of_Z 10))
      else bonus in
    let originalShortVars := single_letter_count originalVarNames in
    let transformedShortVars := single_letter_count transformedVarNames in
    if transformedShortVars <? originalShortVars
    then bonus + (originalShortVars - transformedShortVars) * 5
    else bonus
  else if str_eqb transformerId (lit "flatten-control-flow") then
    let originalNestingLevel := calculateMaxNestingLevel originalCode in
    let transformedNestingLevel := calculateMaxNestingLevel transformedCode in
    if transformedNestingLevel <? originalNestingLevel
    then bonus + (originalNestingLevel - transformedNestingLevel) * 10
    else bonus
  else if str_eqb transformerId (lit "remove-dead-code") then
    let unreachableBlocksRemoved :=
      count_matches unreachableBlockPattern originalCode
      - count_matches unreachableBlockPattern transformedCode in
    let bonus := bonus + unreachableBlocksRemoved * 15 in
    let emptyBlocksRemoved :=
      count_matches emptyBlockPattern originalCode
      - count_matches emptyBlockPattern transformedCode in
    let bonus := bonus + emptyBlocksRemoved * 5 in
    let codeReduction := size_reduction originalCode transformedCode in
    if gtb codeReduction (dec 2 10) then bonus + 20
    else if gtb codeReduction (dec 1 10) then bonus + 10
    else if gtb codeReduction (dec 5 100) then bonus + 5
    else bonus
  else bonus.

(** [calculateScore] *)
Definition calculateScore
    (originalCode transformedCode transformerId : jsstring) : num :=
  let complexityFactor :=
    calculateComplexityFactor originalCode transformedCode in
  let bonusPoints :=
    calculateBonusPoints originalCode transformedCode transformerId in
  let totalScore :=
    Math_round
      (add (mul (basePoints transformerId) complexityFactor)
           (of_Z bonusPoints)) in
  totalScore.

(** ** The leaderboard *)

(** [Array.prototype.sort] with a comparison function.  ECMAScript requires
    the sort to be stable; for a consistent comparison function the result
    is then determined, and it is computed here by a stable insertion
    sort.  An element moves behind another one only when the comparison
    function returns a value greater than zero; a [NaN] result counts as
    zero. *)
Section ArraySort.

Variable A : Type.
Variable comparefn : A -> A -> num.

Definition sorts_after (x y : A) : bool := gtb (comparefn x y) (of_Z 0).

Fixpoint insert (x : A) (l : list A) : list A :=
  match l with
  | [] => [x]
  | y :: l' => if sorts_after x y then y :: insert x l' else x :: l
  end.

Fixpoint Array_sort (l : list A) : list A :=
  match l with
  | [] => []
  | x :: l' => insert x (Array_sort l')
  end.

End ArraySort.

Arguments sorts_after {A} comparefn x y.
Arguments insert {A} comparefn x l.
Arguments Array_sort {A} comparefn l.

(** An entry of the leaderboard: its [score] field and the rest of it. *)
Record entry (T : Type) : Type := Entry {
  score : num;
  fields : T
}.

Arguments Entry {T} score fields.
Arguments score {T} e.
Arguments fields {T} e.

(** The comparison function [(a, b) => b.score - a.score]. *)
Definition by_score {T : Type} (a b : entry T) : num :=
  sub (score b) (score a).

(** [getLeaderboard]: the copy [[...entries]] leaves the argument as it
    is. *)
Definition getLeaderboard {T : Type} (entries : list (entry T))
  : list (entry T) :=
  Array_sort by_score entries.

(** ** Readability *)

(** The number of lines of a function body, [(body.match(/\n/g) ||
    []).length + 1]. *)
Definition body_line_count (functionBody : jsstring) : Z :=
  count_matches newlinePattern functionBody + 1.

(** The points the loop over the matches of a function pattern adds: 5
    for each body of fewer than 15 lines; [group] is the capture that holds
    the body. *)
Definition short_function_points (group : nat) (functions : list mresult)
  : Z :=
  fold_left
    (fun score m =>
       let functionBody := capture group (m_caps m) in
       let lineCount := body_line_count functionBody in
       if lineCount <? 15 then score + 5 else score)
    functions 0.

(** The score before the final rounding and clamping. *)
Definition readability_sum (code : jsstring) : Z :=
  let score := 100 in
  let evalUsage := count_matches evalPattern code in
  let functionConstructorUsage :=
    count_matches functionConstructorPattern code in
  let score := score - (evalUsage + functionConstructorUsage) * 10 in
  let singleCharVars := match_all singleCharVarPattern code in
  let score := score - Z.of_nat (List.length singleCharVars) * 5 in
  let deepNestings := count_matches deepNestingPattern code in
  let score := score - deepNestings * 5 in
  let score := if len code >? 500 then score - 5 else score in
  let descriptiveVars := match_all descriptiveVarPattern code in
  let score := score + Z.of_nat (List.length descriptiveVars) * 10 in
  let functions := match_all functionPattern code in
  let score := score + short_function_points 2 functions in
  let arrowFunctions := match_all arrowFunctionPattern code in
  let score := score + short_function_points 1 arrowFunctions in
  score.

(** [calculateReadabilityScore] *)
Definition calculateReadabilityScore (code : value) : Z :=
  if (negb (to_boolean code) || negb (is_string code))%bool then 0
  else
    match code with
    | VStr s =>
        Z.max 0 (Z.min 100 (Qround_half_up (inject_Z (readability_sum s))))
    | _ => 0
    end.

(** ** Challenge mode *)

Record ScoreBreakdown : Type := Breakdown {
  tokenCount : Z;
  variableNameImprovement : Z;
  evalRemoval : Z;
  formatting : Z;
  total : Z
}.

Record ChallengeResult : Type := Challenge {
  challenge_score : Z;
  breakdown : ScoreBreakdown
}.

(** [countTokens] *)
Definition countTokens (code : jsstring) : Z :=
  let tokens :=
    filter (fun token => len token >? 0)
           (Regex.split tokenSeparatorPattern code) in
  Z.of_nat (List.length tokens).

(** [avgLength] is held as the exact quotient of the total length by the
    count; the number of the source is its rounding to binary64. *)
Record VariableNameStats : Type := Stats {
  count : Z;
  avgLength : Q;
  shortNames : Z;
  descriptiveNames : Z
}.

(** [analyzeVariableNames] *)
Definition analyzeVariableNames (code : jsstring) : VariableNameStats :=
  let declarations := match_all varDeclarationPattern code in
  let varNames := map (fun m => capture 2 (m_caps m)) declarations in
  let totalLength := total_length varNames in
  let avgLength :=
    if Z.of_nat (List.length varNames) >? 0
    then (inject_Z totalLength / inject_Z (Z.of_nat (List.length varNames)))%Q
    else 0%Q in
  let shortNames :=
    Z.of_nat (List.length (filter (fun name => len name <=? 2) varNames)) in
  let descriptiveNames :=
    Z.of_nat
      (List.length
         (filter
            (fun name =>
               ((len name >? 3)
                && (test upperPattern name
                    || includes_char name (N_of_ascii "_")))%bool)
            varNames)) in
  Stats (Z.of_nat (List.length varNames)) avgLength shortNames
        descriptiveNames.

(** The lines of more than 100 units once trimmed. *)
Definition long_lines (code : jsstring) : Z :=
  Z.of_nat
    (List.length
       (filter (fun line => len (trim line) >? 100) (split_lines code))).

(** [assessFormatting] *)
Definition assessFormatting (originalCode transformedCode : jsstring) : Z :=
  let score := 0 in
  let originalLines := Z.of_nat (List.length (split_lines originalCode)) in
  let transformedLines :=
    Z.of_nat (List.length (split_lines transformedCode)) in
  let score :=
    if Qgtb (inject_Z transformedLines) (inject_Z originalLines * (12 # 10))
    then score + 10 else score in
  let originalIndentIssues := countIndentationIssues originalCode in
  let transformedIndentIssues := countIndentationIssues transformedCode in
  let score :=
    if transformedIndentIssues <? originalIndentIssues
    then score + Z.min 15 (originalIndentIssues - transformedIndentIssues)
    else score in
  let originalLongLines := long_lines originalCode in
  let transformedLongLines := long_lines transformedCode in
  let score :=
    if transformedLongLines <? originalLongLines
    then score + Z.min 10 ((originalLongLines - transformedLongLines) * 2)
    else score in
  score.

(** The four components of [getChallengeScore], in the order of the
    source. *)
Definition token_component (originalCode transformedCode : jsstring) : Z :=
  let originalTokens := countTokens originalCode in
  let transformedTokens := countTokens transformedCode in
  let tokenRatio := div (of_Z transformedTokens) (of_Z originalTokens) in
  if ltb tokenRatio (dec 8 10) then 15
  else if leb tokenRatio (dec 12 10) then 10
  else if gtb tokenRatio (dec 15 10) then -5
  else 0.

Definition name_component (originalCode transformedCode : jsstring) : Z :=
  let originalVarInfo := analyzeVariableNames originalCode in
  let transformedVarInfo := analyzeVariableNames transformedCode in
  let originalAvgLength := b64 (Fin (avgLength originalVarInfo)) in
  let transformedAvgLength := b64 (Fin (avgLength transformedVarInfo)) in
  if gtb transformedAvgLength originalAvgLength then
    let improvement := fsub transformedAvgLength originalAvgLength in
    Z.min 25 (rounded (fmul improvement (of_Z 8)))
  else 0.

Definition eval_component (originalCode transformedCode : jsstring) : Z :=
  let originalEvalCount := count_matches evalPattern originalCode in
  let transformedEvalCount := count_matches evalPattern transformedCode in
  if ((originalEvalCount >? 0) && (transformedEvalCount =? 0))%bool then 20
  else if originalEvalCount >? transformedEvalCount then 10
  else if transformedEvalCount >? 0 then -10
  else 0.

(** [getChallengeScore]: the fields of [breakdown] are assigned one after
    the other and the object is returned with the score. *)
Definition getChallengeScore (originalCode transformedCode : jsstring)
  : ChallengeResult :=
  let score := 50 in
  let b_tokenCount := token_component originalCode transformedCode in
  let b_variableNameImprovement :=
    name_component originalCode transformedCode in
  let b_evalRemoval := eval_component originalCode transformedCode in
  let formattingScore := assessFormatting originalCode transformedCode in
  let b_formatting := formattingScore in
  let score :=
    score + (b_tokenCount + b_variableNameImprovement + b_evalRemoval
             + b_formatting) in
  let b_total := Z.max 0 (Z.min 100 (Qround_half_up (inject_Z score))) in
  Challenge b_total
    (Breakdown b_tokenCount b_variableNameImprovement b_evalRemoval
               b_formatting b_total).

(** ** Notions used to state the properties *)

(** The factor for the length of the original code, by thresholds on the
    length itself, the highest first. *)
Definition length_factor_by_thresholds (originalLength : Z) : Q :=
  if originalLength >? 1000 then 3 # 2
  else if originalLength >? 500 then 5 # 4
  else if originalLength >? 200 then 11 # 10
  else 1.

(** The change ratio [|transformed.length - original.length| /
    original.length] as the source computes it. *)
Definition change_ratio (originalCode transformedCode : jsstring) : num :=
  div (abs (sub (of_Z (len transformedCode)) (of_Z (len originalCode))))
      (of_Z (len originalCode)).

(** The factor for the change ratio, by thresholds on the ratio. *)
Definition change_factor_by_thresholds (ratio : num) : Q :=
  if gtb ratio (Fin (1 # 2)) then 3 # 2
  else if gtb ratio (Fin (3 # 10)) then 13 # 10
  else if gtb ratio (Fin (1 # 10)) then 11 # 10
  else 1.

(** [clamp(x, lo, hi)] *)
Definition clamp (x lo hi : Q) : Q := Qmax lo (Qmin hi x).

(** The size-reduction ratio of a transformed variant, as a rational; it
    is meant for an original of positive length. *)
Definition reduction_ratio (originalCode transformedCode : jsstring) : Q :=
  inject_Z (len originalCode - len transformedCode)
  / inject_Z (len originalCode).

(** The tiers of the [minify] bonus on a rational ratio. *)
Definition minify_tier (ratio : Q) : Z :=
  if Qltb (1 # 2) ratio then 30
  else if Qltb (3 # 10) ratio then 20
  else if Qltb (1 # 10) ratio then 10
  else 0.

(** The first term of the [rename-variables] bonus: the increase of the
    average length of the declared names, times 10, rounded to an integer;
    0 when the average does not increase.  The two averages, their
    difference and the product are binary64 numbers. *)
Definition name_length_bonus (originalCode transformedCode : jsstring) : Z :=
  let originalAvgLength :=
    b64 (Fin (average_length (declared_names originalCode))) in
  let transformedAvgLength :=
    b64 (Fin (average_length (declared_names transformedCode))) in
  if gtb transformedAvgLength originalAvgLength
  then rounded (fmul (fsub transformedAvgLength originalAvgLength) (of_Z 10))
  else 0.

(** The reduction of the number of one-letter declared names, which may be
    negative. *)
Definition single_letter_reduction (originalCode transformedCode : jsstring)
  : Z :=
  single_letter_count (declared_names originalCode)
  - single_letter_count (declared_names transformedCode).

(** The [rename-variables] bonus with the second term applied whatever its
    sign. *)
Definition rename_bonus_signed (originalCode transformedCode : jsstring) : Z :=
  name_length_bonus originalCode transformedCode
  + 5 * single_letter_reduction originalCode transformedCode.

(** Equality of numbers, [NaN] being equal to nothing. *)
Definition num_eqb (x y : num) : bool :=
  match x, y with
  | PInf, PInf | NInf, NInf => true
  | Fin a, Fin b => Qeq_bool a b
  | _, _ => false
  end.

(** [a] may stand before [b] in a list in descending order of score. *)
Definition score_ge {T : Type} (a b : entry T) : Prop :=
  leb (score b) (score a) = true.

Definition is_number {T : Type} (e : entry T) : Prop := score e <> NaN.

(** The ids listed in the table of base points, and the names the table
    inherits. *)
Definition listed (transformerId : jsstring) : Prop :=
  In transformerId (map fst TRANSFORMATION_POINTS).

Definition inherited (transformerId : jsstring) : Prop :=
  In transformerId Object_prototype_keys.

(** A board with two entries of the same score, told apart by their
    other field. *)
Definition example_board : list (entry nat) :=
  [ Entry (of_Z 5) 0%nat; Entry (of_Z 20) 1%nat; Entry (of_Z 10) 2%nat;
    Entry (of_Z 20) 3%nat ].

(** What a match of a regular expression consists of, whatever the
    order in which the matcher tries the alternatives: the text [w] it
    consumes and the captures [cs] it adds, the latest first. *)
Fixpoint sem (r : regex) (w : jsstring) (cs : list (nat * jsstring)) : Prop :=
  match r with
  | Eps => w = [] /\ cs = []
  | Chr c => w = [c] /\ cs = []
  | Cls p => (exists a, w = [a] /\ p a = true) /\ cs = []
  | Seq r1 r2 =>
      exists w1 w2 c1 c2,
        w = w1 ++ w2 /\ cs = c2 ++ c1 /\ sem r1 w1 c1 /\ sem r2 w2 c2
  | Alt r1 r2 => sem r1 w cs \/ sem r2 w cs
  | Star p => forallb p w = true /\ cs = []
  | Plus p => w <> [] /\ forallb p w = true /\ cs = []
  | WordB => w = [] /\ cs = []
  | Group i r' => exists c, sem r' w c /\ cs = (i, w) :: c
  end.

(** ** The score board ([ScoreBoard] component) *)

(** The pure computations of the component: the normalised readability
    score, its colour and label, the level badge, the progress towards the
    next level, the average of the points and the displayed name of a
    transformer. *)
Module ScoreBoard.

Local Open Scope string_scope.

(** [Math.min] and [Math.max] of two numbers: [NaN] as soon as one
    argument is. *)
Definition Math_min (x y : num) : num :=
  match x, y with
  | NaN, _ | _, NaN => NaN
  | _, _ => if ltb y x then y else x
  end.

Definition Math_max (x y : num) : num :=
  match x, y with
  | NaN, _ | _, NaN => NaN
  | _, _ => if ltb x y then y else x
  end.

(** [x >= y] *)
Definition geb (x y : num) : bool := leb y x.

(** [Math.max(0, Math.min(100, readabilityScore))] *)
Definition normalizedReadabilityScore (readabilityScore : num) : num :=
  Math_max (of_Z 0) (Math_min (of_Z 100) readabilityScore).

Definition getReadabilityColor (score : num) : string :=
  if geb score (of_Z 80) then "text-green-400"
  else if geb score (of_Z 60) then "text-blue-400"
  else if geb score (of_Z 40) then "text-yellow-400"
  else if geb score (of_Z 20) then "text-orange-400"
  else "text-red-400".

Definition getReadabilityLabel (score : num) : string :=
  if geb score (of_Z 80) then "Excellent"
  else if geb score (of_Z 60) then "Good"
  else if geb score (of_Z 40) then "Fair"
  else if geb score (of_Z 20) then "Poor"
  else "Very Poor".

(** [getLevelBadge]: the name and the colour class of the badge. *)
Definition getLevelBadge (score : num) : string * string :=
  if geb score (of_Z 1000)
  then ("Grand Master", "bg-gradient-to-r from-blue-400 to-cyan-500")
  else if geb score (of_Z 500)
  then ("Master Transformer", "bg-gradient-to-r from-blue-500 to-cyan-600")
  else if geb score (of_Z 200)
  then ("Code Wizard", "bg-gradient-to-r from-blue-600 to-cyan-700")
  else if geb score (of_Z 100)
  then ("Code Adept", "bg-gradient-to-r from-blue-700 to-cyan-800")
  else ("Apprentice", "bg-gradient-to-r from-blue-800 to-cyan-900").

(** The threshold shown after "Next:",
    [score < 100 ? 100 : score < 200 ? 200 : score < 500 ? 500 : 1000];
    it is rendered when [score < 1000]. *)
Definition nextLevel (score : num) : Z :=
  if ltb score (of_Z 100) then 100
  else if ltb score (of_Z 200) then 200
  else if ltb score (of_Z 500) then 500
  else 1000.

(** The width of the progress bar, in per cent, computed in binary64; it
    is rendered when [score < 1000]. *)
Definition progressWidth (score : num) : num :=
  if ltb score (of_Z 100)
  then fmul (fdiv score (of_Z 100)) (of_Z 100)
  else if ltb score (of_Z 200)
  then fmul (fdiv (fsub score (of_Z 100)) (of_Z 100)) (of_Z 100)
  else if ltb score (of_Z 500)
  then fmul (fdiv (fsub score (of_Z 200)) (of_Z 300)) (of_Z 100)
  else fmul (fdiv (fsub score (of_Z 500)) (of_Z 500)) (of_Z 100).

(** The average shown under "Avg. Points",
    [length > 0 ? Math.round(score / length) : 0]; the quotient is a
    binary64 number. *)
Definition averagePoints (score : num) (historyLength : Z) : num :=
  if (historyLength >? 0)%Z
  then Math_round (fdiv score (of_Z historyLength))
  else of_Z 0.

Local Open Scope list_scope.

(** [s.replace(r, replacement)] for a regular expression with the [g]
    flag and a replacement without [$]: the text outside the matches is
    kept and each match gives way to the replacement.  The scan is the one
    of [match_all_from]; after an empty match the unit at that index is
    copied. *)
Fixpoint replace_from (r : regex) (replacement : jsstring)
    (pv : option char) (s : jsstring) (i skip : nat) : jsstring :=
  match skip, s with
  | S n, a :: s' => replace_from r replacement (Some a) s' (S i) n
  | S _, [] => []
  | O, _ =>
      match match_here r pv s i, s with
      | Some (O, _), a :: s' =>
          replacement
            ++ a :: replace_from r replacement (Some a) s' (S i) 0
      | Some (S n, _), a :: s' =>
          replacement ++ replace_from r replacement (Some a) s' (S i) n
      | Some _, [] => replacement
      | None, a :: s' => a :: replace_from r replacement (Some a) s' (S i) 0
      | None, [] => []
      end
  end.

Definition replace (r : regex) (replacement s : jsstring) : jsstring :=
  replace_from r replacement None s 0 0.

(** The pattern [/-/g] *)
Definition hyphenPattern : regex := Lit "-".

(** [entry.transformerId.replace(/-/g, ' ')] *)
Definition displayName (transformerId : jsstring) : jsstring :=
  replace hyphenPattern (lit " ") transformerId.

End ScoreBoard.

(** ** Further notions used to state the properties *)

(** The number of tokens by a direct scan: the maximal runs of units that
    are not separators.  [in_token] tells whether the unit before belongs
    to a token. *)
Fixpoint count_runs (in_token : bool) (s : jsstring) : Z :=
  match s with
  | [] => 0
  | c :: s' =>
      if is_separator c then count_runs false s'
      else (if in_token then 0 else 1) + count_runs true s'
  end.

(** The number of non-empty pieces of a split, as [countTokens] counts
    them. *)
Definition nonempty_count (pieces : list jsstring) : Z :=
  Z.of_nat (List.length (filter (fun token => len token >? 0) pieces)).

(** The number of line feeds of a string. *)
Fixpoint count_newlines (s : jsstring) : Z :=
  match s with
  | [] => 0
  | c :: s' => (if char_eqb c NL then 1 else 0) + count_newlines s'
  end.

(** The length of the longest prefix whose units satisfy [p]. *)
Fixpoint run_length (p : char -> bool) (s : jsstring) : nat :=
  match s with
  | c :: s' => if p c then S (run_length p s') else O
  | [] => O
  end.

(** The ids whose bonus is guarded against a negative value. *)
Definition guarded_id (transformerId : jsstring) : Prop :=
  In transformerId
     [lit "format"; lit "minify"; lit "rename-variables";
      lit "flatten-control-flow"].

(** The ids whose bonus is a signed difference of counts. *)
Definition signed_id (transformerId : jsstring) : Prop :=
  In transformerId [lit "es6-to-es5"; lit "jsx-to-js"].

(** The base points of a listed id, 5 otherwise. *)
Definition table_points (transformerId : jsstring) : Z :=
  match own_property TRANSFORMATION_POINTS transformerId with
  | Some v => v
  | None => 5
  end.

(** One unit of a displayed name: a hyphen becomes a blank. *)
Definition hyphen_to_blank (c : char) : char :=
  if char_eqb c (N_of_ascii "-") then N_of_ascii " " else c.

(** The number of occurrences of a unit in a string. *)
Fixpoint count_unit (c : char) (s : jsstring) : Z :=
  match s with
  | [] => 0
  | a :: s' => (if char_eqb a c then 1 else 0) + count_unit c s'
  end.

(** A board of two entries and the same board in descending order. *)
Definition small_board : list (entry nat) :=
  [ Entry (of_Z 5) 0%nat; Entry (of_Z 20) 1%nat ].

Definition small_board_sorted : list (entry nat) :=
  [ Entry (of_Z 20) 1%nat; Entry (of_Z 5) 0%nat ].



(** 48 declarations, of 43 names of 2 units and 5 names of 3 units. *)
Definition many_names : jsstring :=
  List.concat (repeat (lit "var ab;") 43 ++ repeat (lit "var abc;") 5).

(** * Properties *)

(** ** Numbers *)

Lemma Qcompare_inject_Z (a b : Z) :
  Qcompare (inject_Z a) (inject_Z b) = Z.compare a b.
Proof.
  unfold Qcompare, inject_Z; simpl. now rewrite !Z.mul_1_r.
Qed.

Lemma ltb_of_Z (a b : Z) : ltb (of_Z a) (of_Z b) = (a <? b).
Proof.
  unfold ltb, of_Z. rewrite Qcompare_inject_Z. unfold Z.ltb.
  now destruct (a ?= b).
Qed.

Lemma gtb_of_Z (a b : Z) : gtb (of_Z a) (of_Z b) = (a >? b).
Proof.
  unfold gtb. rewrite ltb_of_Z. now rewrite Z.gtb_ltb.
Qed.

Lemma Qsign_compare (q : Q) : Qsign q = Qcompare q 0.
Proof.
  unfold Qsign, Qcompare; simpl. now rewrite Z.mul_1_r.
Qed.

Lemma Qsign_Qred (q : Q) : Qsign (Qred q) = Qsign q.
Proof.
  rewrite !Qsign_compare. now rewrite (Qred_correct q).
Qed.

Lemma ltb_fin_l (q : Q) (y : num) : ltb (fin q) y = ltb (Fin q) y.
Proof.
  destruct y; simpl; trivial. now rewrite (Qred_correct q).
Qed.

Lemma ltb_fin_r (x : num) (q : Q) : ltb x (fin q) = ltb x (Fin q).
Proof.
  destruct x; simpl; trivial. now rewrite (Qred_correct q).
Qed.

Lemma ltb_Fin (a b : Q) : ltb (Fin a) (Fin b) = Qltb a b.
Proof.
  unfold ltb, Qltb, Qle_bool, Qcompare, Z.leb.
  rewrite (Z.compare_antisym (Qnum a * QDen b) (Qnum b * QDen a)).
  destruct (Qnum a * QDen b ?= Qnum b * QDen a)%Z; reflexivity.
Qed.

Lemma Qltb_lt (a b : Q) : Qltb a b = true <-> (a < b)%Q.
Proof.
  unfold Qltb. rewrite negb_true_iff.
  split; intros H.
  - apply Qnot_le_lt. intros Hle. apply Qle_bool_iff in Hle. congruence.
  - destruct (Qle_bool b a) eqn:E; trivial.
    apply Qle_bool_iff in E. exfalso. exact (Qlt_not_le _ _ H E).
Qed.

Lemma Qltb_ge (a b : Q) : Qltb a b = false <-> (b <= a)%Q.
Proof.
  unfold Qltb. rewrite negb_false_iff. apply Qle_bool_iff.
Qed.

(** ** The complexity factor *)

Lemma length_factor_thresholds (n : Z) :
  lengthFactor_of (of_Z n) = Fin (length_factor_by_thresholds n).
Proof.
  unfold lengthFactor_of, length_factor_by_thresholds.
  rewrite !gtb_of_Z.
  destruct (n >? 1000); [reflexivity|].
  destruct (n >? 500); [reflexivity|].
  destruct (n >? 200); reflexivity.
Qed.

Lemma change_factor_thresholds (r : num) :
  changeFactor_of r = Fin (change_factor_by_thresholds r).
Proof.
  unfold changeFactor_of, change_factor_by_thresholds.
  change (dec 5 10) with (Fin (1 # 2)).
  change (dec 3 10) with (Fin (3 # 10)).
  change (dec 1 10) with (Fin (1 # 10)).
  destruct (gtb r (Fin (1 # 2))); [reflexivity|].
  destruct (gtb r (Fin (3 # 10))); [reflexivity|].
  destruct (gtb r (Fin (1 # 10))); reflexivity.
Qed.

Lemma length_factor_cases (n : Z) :
  In (length_factor_by_thresholds n) [1; 11 # 10; 5 # 4; 3 # 2]%Q.
Proof.
  unfold length_factor_by_thresholds.
  destruct (n >? 1000); [simpl; tauto|].
  destruct (n >? 500); [simpl; tauto|].
  destruct (n >? 200); simpl; tauto.
Qed.

Lemma change_factor_cases (r : num) :
  In (change_factor_by_thresholds r) [1; 11 # 10; 13 # 10; 3 # 2]%Q.
Proof.
  unfold change_factor_by_thresholds.
  destruct (gtb r (Fin (1 # 2))); [simpl; tauto|].
  destruct (gtb r (Fin (3 # 10))); [simpl; tauto|].
  destruct (gtb r (Fin (1 # 10))); simpl; tauto.
Qed.

(** C7.  For every pair of strings, empty ones included, the complexity
    factor is the product of a length factor, one of 1, 1.1, 1.25 and 1.5
    chosen by the thresholds 1000, 500 and 200 on the length of the
    original, the highest first, and of a change factor, one of 1, 1.1, 1.3
    and 1.5 chosen by the thresholds 0.5, 0.3 and 0.1 on the change ratio;
    it is a finite number, at least 1 and at most 2.25. *)
Theorem complexity_factor_product_and_range
    (originalCode transformedCode : jsstring) :
  let lf := length_factor_by_thresholds (len originalCode) in
  let cf :=
    change_factor_by_thresholds (change_ratio originalCode transformedCode) in
  In lf [1; 11 # 10; 5 # 4; 3 # 2]%Q
  /\ In cf [1; 11 # 10; 13 # 10; 3 # 2]%Q
  /\ calculateComplexityFactor originalCode transformedCode
     = mul (Fin lf) (Fin cf)
  /\ exists q : Q,
       calculateComplexityFactor originalCode transformedCode = Fin q
       /\ (1 <= q <= 9 # 4)%Q.
Proof.
  intros lf cf.
  assert (Hl := length_factor_cases (len originalCode)).
  assert (Hc := change_factor_cases (change_ratio originalCode transformedCode)).
  assert (E : calculateComplexityFactor originalCode transformedCode
              = mul (Fin lf) (Fin cf)).
  { unfold calculateComplexityFactor.
    rewrite length_factor_thresholds, change_factor_thresholds.
    reflexivity. }
  repeat split; trivial.
  rewrite E. fold lf in Hl. fold cf in Hc.
  simpl in Hl, Hc.
  destruct Hl as [<-|[<-|[<-|[<-|[]]]]];
    destruct Hc as [<-|[<-|[<-|[<-|[]]]]];
    (eexists; split; [reflexivity|]; split; discriminate).
Qed.

Lemma change_ratio_empty_original (transformedCode : jsstring) :
  change_ratio [] transformedCode
  = match transformedCode with [] => NaN | _ :: _ => PInf end.
Proof.
  destruct transformedCode as [|c t]; [reflexivity|].
  unfold change_ratio, len.
  set (n := Z.of_nat (List.length (c :: t))).
  assert (Hn : 0 < n) by (subst n; simpl List.length; lia).
  change (of_Z (Z.of_nat (List.length (@nil char)))) with (Fin 0).
  unfold of_Z, sub, neg, add, abs, div, fin.
  change (Qsign 0) with Eq.
  rewrite Qsign_Qred, Qsign_compare.
  assert (H : (0 < Qabs (Qred (inject_Z n + Qred (- 0))))%Q).
  { rewrite (Qred_correct (inject_Z n + Qred (- 0))).
    rewrite (Qred_correct (- 0)).
    setoid_replace (inject_Z n + - 0)%Q with (inject_Z n) by ring.
    rewrite Qabs_pos.
    - change 0%Q with (inject_Z 0). now rewrite <- Zlt_Qlt.
    - change 0%Q with (inject_Z 0). rewrite <- Zle_Qle. lia. }
  apply Qgt_alt in H. now rewrite H.
Qed.

(** With an empty original the factor is 1 when the transformed code is
    empty too, and 1.5 as soon as it is not: the quotient by the zero
    length is then infinite and passes the first threshold. *)
Lemma complexity_factor_empty_original (transformedCode : jsstring) :
  calculateComplexityFactor [] transformedCode
  = match transformedCode with [] => Fin 1 | _ :: _ => Fin (3 # 2) end.
Proof.
  unfold calculateComplexityFactor.
  fold (change_ratio [] transformedCode).
  rewrite change_ratio_empty_original.
  destruct transformedCode; reflexivity.
Qed.

(** C2.  The factor of an empty original and the one-letter transformed
    code ["a"] is 1.5, not 1: the change ratio is not taken as 0. *)
Theorem complexity_factor_empty_original_is_not_neutral :
  change_ratio (lit "") (lit "a") = PInf
  /\ calculateComplexityFactor (lit "") (lit "a") = Fin (3 # 2)
  /\ calculateComplexityFactor (lit "") (lit "a") <> Fin 1.
Proof.
  repeat split; try reflexivity. discriminate.
Qed.

(** ** Base points and unknown transformers *)

Lemma str_eqb_eq (s t : jsstring) : str_eqb s t = true <-> s = t.
Proof.
  revert t. induction s as [|a s IH]; intros [|b t]; simpl.
  - tauto.
  - split; discriminate.
  - split; discriminate.
  - unfold char_eqb. rewrite andb_true_iff, N.eqb_eq, IH.
    split; [intros [-> ->]; reflexivity|intros [= -> ->]; tauto].
Qed.

Lemma str_eqb_neq (s t : jsstring) : s <> t -> str_eqb s t = false.
Proof.
  intros H. destruct (str_eqb s t) eqn:E; trivial.
  apply str_eqb_eq in E. contradiction.
Qed.

Lemma own_property_unlisted (table : list (jsstring * Z)) (key : jsstring) :
  ~ In key (map fst table) -> own_property table key = None.
Proof.
  induction table as [|[k v] table IH]; simpl; intros H; trivial.
  rewrite str_eqb_neq by (intros ->; tauto).
  apply IH. tauto.
Qed.

Lemma existsb_str_eqb_false (key : jsstring) (keys : list jsstring) :
  ~ In key keys -> existsb (str_eqb key) keys = false.
Proof.
  induction keys as [|k keys IH]; simpl; intros H; trivial.
  rewrite str_eqb_neq by (intros ->; tauto).
  apply IH. tauto.
Qed.

Lemma unlisted_property (transformerId : jsstring) :
  ~ listed transformerId -> ~ inherited transformerId ->
  get_TRANSFORMATION_POINTS transformerId = Absent.
Proof.
  intros Hl Hi. unfold get_TRANSFORMATION_POINTS.
  rewrite own_property_unlisted by exact Hl.
  now rewrite existsb_str_eqb_false by exact Hi.
Qed.

Lemma unlisted_bonus (originalCode transformedCode transformerId : jsstring) :
  ~ listed transformerId ->
  calculateBonusPoints originalCode transformedCode transformerId = 0.
Proof.
  intros Hl. unfold calculateBonusPoints.
  unfold listed in Hl. simpl in Hl.
  repeat (rewrite str_eqb_neq by (intros ->; tauto)).
  reflexivity.
Qed.

(** An id that is neither listed nor the name of a property of
    [Object.prototype] gets 5 base points and no bonus. *)
Lemma unlisted_score (originalCode transformedCode transformerId : jsstring) :
  ~ listed transformerId -> ~ inherited transformerId ->
  basePoints transformerId = of_Z 5
  /\ calculateBonusPoints originalCode transformedCode transformerId = 0
  /\ calculateScore originalCode transformedCode transformerId
     = Math_round
         (add (mul (of_Z 5)
                   (calculateComplexityFactor originalCode transformedCode))
              (of_Z 0)).
Proof.
  intros Hl Hi.
  assert (B : basePoints transformerId = of_Z 5).
  { unfold basePoints. now rewrite unlisted_property. }
  split; [exact B|]. split; [now apply unlisted_bonus|].
  unfold calculateScore. rewrite B. now rewrite unlisted_bonus.
Qed.

Lemma unlisted_score_example :
  ~ listed (lit "unknown-id") /\ ~ inherited (lit "unknown-id")
  /\ calculateScore (lit "a") (lit "a") (lit "unknown-id") = of_Z 5.
Proof.
  assert (Hl : ~ listed (lit "unknown-id"))
    by (unfold listed; simpl; intuition discriminate).
  assert (Hi : ~ inherited (lit "unknown-id"))
    by (unfold inherited; simpl; intuition discriminate).
  split; [exact Hl|]. split; [exact Hi|].
  destruct (unlisted_score (lit "a") (lit "a") (lit "unknown-id") Hl Hi)
    as (_ & _ & ->).
  reflexivity.
Qed.

(** Every name inherited from [Object.prototype] gives [NaN]. *)
Lemma inherited_score (originalCode transformedCode transformerId : jsstring) :
  inherited transformerId ->
  ~ listed transformerId
  /\ calculateScore originalCode transformedCode transformerId = NaN.
Proof.
  intros H. unfold inherited in H. simpl in H.
  assert (E : basePoints transformerId = NaN /\ ~ listed transformerId).
  { repeat (destruct H as [<-|H];
            [split; [reflexivity|unfold listed; simpl; intuition discriminate]|]).
    contradiction. }
  destruct E as [E Hl]. split; [exact Hl|].
  unfold calculateScore. now rewrite E.
Qed.

(** C1.  The id ["constructor"] is not listed in the table of base points,
    the complexity factor of the pair (["a"], ["a"]) is 1 and its bonus is
    0, and yet the score is [NaN] instead of 5: the property read finds
    [Object.prototype.constructor], a function, which is kept in place of
    the default and which the product turns into [NaN]. *)
Theorem inherited_id_misses_the_default :
  ~ listed (lit "constructor")
  /\ get_TRANSFORMATION_POINTS (lit "constructor") = Inherited
  /\ calculateComplexityFactor (lit "a") (lit "a") = Fin 1
  /\ calculateBonusPoints (lit "a") (lit "a") (lit "constructor") = 0
  /\ calculateScore (lit "a") (lit "a") (lit "constructor") = NaN
  /\ calculateScore (lit "a") (lit "a") (lit "constructor") <> of_Z 5.
Proof.
  split; [unfold listed; simpl; intuition discriminate|].
  repeat split; try reflexivity. discriminate.
Qed.

(** ** Negative scores *)

(** C6.  The score is not floored at 0: for the original ["a"] and a
    transformed code of thirteen ["<"], the [jsx-to-js] bonus is -65 and
    the score is 40 * 1.5 - 65 = -5. *)
Theorem calculateScore_can_be_negative :
  exists originalCode transformedCode transformerId : jsstring,
    calculateBonusPoints originalCode transformedCode transformerId = -65
    /\ calculateScore originalCode transformedCode transformerId = of_Z (-5)
    /\ ltb (calculateScore originalCode transformedCode transformerId)
           (of_Z 0) = true.
Proof.
  exists (lit "a"), (lit "<<<<<<<<<<<<<"), (lit "jsx-to-js").
  repeat split; reflexivity.
Qed.

(** ** The matcher and the names of the declarations *)

Lemma star_sound (p : char -> bool) (k : cont) (s : jsstring) :
  forall (pv : option char) (i : nat) (cs : list (nat * jsstring))
         (st' : mstate),
    star p k pv s i cs = Some st' ->
    exists (w s1 : jsstring) (pv1 : option char),
      s = w ++ s1 /\ forallb p w = true
      /\ k (MState pv1 s1 (i + List.length w) cs) = Some st'.
Proof.
  induction s as [|a s IH]; intros pv i cs st' H; simpl in H.
  - exists [], [], pv. simpl. now rewrite Nat.add_0_r.
  - destruct (p a) eqn:Ea.
    + destruct (star p k (Some a) s (S i) cs) as [r|] eqn:Es.
      * injection H as <-.
        destruct (IH _ _ _ _ Es) as (w & s1 & pv1 & -> & Hw & Hk).
        exists (a :: w), s1, pv1. simpl. rewrite Ea, Hw.
        repeat split. now rewrite Nat.add_succ_r.
      * exists [], (a :: s), pv. simpl. now rewrite Nat.add_0_r.
    + exists [], (a :: s), pv. simpl. now rewrite Nat.add_0_r.
Qed.

Lemma step_sound (p : char -> bool) (k : cont) (st st' : mstate) :
  step p k st = Some st' ->
  exists (a : char) (s1 : jsstring),
    st_rest st = a :: s1 /\ p a = true
    /\ k (MState (Some a) s1 (S (st_pos st)) (st_caps st)) = Some st'.
Proof.
  unfold step. destruct (st_rest st) as [|a s1]; [discriminate|].
  destruct (p a) eqn:E; [|discriminate].
  intros H. now exists a, s1.
Qed.

(** Whatever the matcher finds is a match. *)
Lemma run_sound (r : regex) :
  forall (k : cont) (st st' : mstate),
    run r k st = Some st' ->
    exists (w : jsstring) (cs : list (nat * jsstring)) (st1 : mstate),
      sem r w cs
      /\ st_rest st = w ++ st_rest st1
      /\ st_pos st1 = (st_pos st + List.length w)%nat
      /\ st_caps st1 = cs ++ st_caps st
      /\ k st1 = Some st'.
Proof.
  induction r as [|c|p|r1 IH1 r2 IH2|r1 IH1 r2 IH2|p|p| |i r IH];
    intros k st st' H; simpl in H.
  - exists [], [], st. simpl. now rewrite Nat.add_0_r.
  - destruct (step_sound _ _ _ _ H) as (a & s1 & Hr & Ha & Hk).
    apply N.eqb_eq in Ha. subst a.
    exists [c], [], (MState (Some c) s1 (S (st_pos st)) (st_caps st)).
    simpl. rewrite Nat.add_1_r. now repeat split.
  - destruct (step_sound _ _ _ _ H) as (a & s1 & Hr & Ha & Hk).
    exists [a], [], (MState (Some a) s1 (S (st_pos st)) (st_caps st)).
    simpl. rewrite Nat.add_1_r. repeat split; trivial. now exists a.
  - destruct (IH1 _ _ _ H) as (w1 & c1 & st1 & S1 & R1 & P1 & C1 & K1).
    destruct (IH2 _ _ _ K1) as (w2 & c2 & st2 & S2 & R2 & P2 & C2 & K2).
    exists (w1 ++ w2), (c2 ++ c1), st2. simpl. repeat split.
    + now exists w1, w2, c1, c2.
    + now rewrite R1, R2, app_assoc.
    + rewrite P2, P1, length_app. lia.
    + now rewrite C2, C1, app_assoc.
    + exact K2.
  - destruct (run r1 k st) as [x|] eqn:E1.
    + injection H as <-.
      destruct (IH1 _ _ _ E1) as (w & cs & st1 & S1 & Hrest).
      exists w, cs, st1. simpl. split; [now left|exact Hrest].
    + destruct (IH2 _ _ _ H) as (w & cs & st1 & S1 & Hrest).
      exists w, cs, st1. simpl. split; [now right|exact Hrest].
  - unfold star_st in H.
    destruct (star_sound _ _ _ _ _ _ _ H) as (w & s1 & pv1 & Hs & Hw & Hk).
    exists w, [], (MState pv1 s1 (st_pos st + List.length w) (st_caps st)).
    simpl. now repeat split.
  - destruct (step_sound _ _ _ _ H) as (a & s1 & Hr & Ha & Hk).
    unfold star_st in Hk; simpl in Hk.
    destruct (star_sound _ _ _ _ _ _ _ Hk) as (w & s2 & pv1 & Hs & Hw & Hk').
    exists (a :: w), [],
      (MState pv1 s2 (S (st_pos st) + List.length w) (st_caps st)).
    simpl. repeat split; trivial;
      try discriminate; try lia;
      try (now rewrite Ha, Hw); try (now rewrite Hr, Hs).
  - destruct (xorb _ _); [|discriminate].
    exists [], [], st. simpl. now rewrite Nat.add_0_r.
  - destruct (IH _ _ _ H) as (w & c & st1 & S1 & R1 & P1 & C1 & K1).
    exists w, ((i, w) :: c),
      (MState (st_prev st1) (st_rest st1) (st_pos st1)
              ((i, w) :: st_caps st1)).
    simpl. repeat split; trivial.
    + now exists c.
    + now rewrite C1.
    + rewrite <- K1. do 3 f_equal.
      rewrite P1, R1. replace (st_pos st + List.length w - st_pos st)%nat
        with (List.length w + 0)%nat by lia.
      now rewrite firstn_app_2, firstn_O, app_nil_r.
Qed.

Lemma match_here_sound (r : regex) (pv : option char) (s : jsstring)
    (i l : nat) (res : mresult) :
  match_here r pv s i = Some (l, res) ->
  sem r (m_text res) (m_caps res) /\ l = List.length (m_text res).
Proof.
  unfold match_here.
  destruct (run r Some (MState pv s i [])) as [st'|] eqn:E; [|discriminate].
  intros [= <- <-].
  destruct (run_sound r _ _ _ E) as (w & cs & st1 & S1 & R1 & P1 & C1 & K1).
  injection K1 as <-. simpl in *.
  rewrite P1, R1, C1, app_nil_r.
  replace (i + List.length w - i)%nat with (List.length w + 0)%nat by lia.
  rewrite firstn_app_2, firstn_O, app_nil_r. now split.
Qed.

Lemma match_all_from_sound (r : regex) (s : jsstring) :
  forall (pv : option char) (i skip : nat),
    Forall (fun res => sem r (m_text res) (m_caps res))
           (match_all_from r pv s i skip).
Proof.
  induction s as [|a s IH]; intros pv i skip; simpl.
  - destruct skip; [|constructor].
    destruct (match_here r pv [] i) as [[l res]|] eqn:E; constructor.
    + now apply (match_here_sound _ _ _ _ _ _ E).
    + constructor.
  - destruct skip; [|apply IH].
    destruct (match_here r pv (a :: s) i) as [[l res]|] eqn:E; [|apply IH].
    constructor; [|apply IH].
    now apply (match_here_sound _ _ _ _ _ _ E).
Qed.

Lemma ident_char_not_space (c : char) :
  ident_char c = true -> is_space c = false.
Proof.
  unfold ident_char, ident_start, is_space, is_alpha, is_upper, is_lower,
    is_digit, between, one, char_eqb; simpl lit; cbv iota.
  rewrite !orb_true_iff, !andb_true_iff, !N.leb_le, !N.eqb_eq.
  intros H.
  repeat (apply orb_false_iff; split);
    try (apply andb_false_iff; rewrite !N.leb_gt);
    try (apply N.eqb_neq); lia.
Qed.

Lemma ident_start_char (c : char) : ident_start c = true -> ident_char c = true.
Proof.
  unfold ident_start, ident_char.
  rewrite !orb_true_iff. tauto.
Qed.

(** The separator [/\s+/] tried at a unit that is not white space. *)
Lemma spaces_fail (pv : option char) (c : char) (s : jsstring) (i : nat) :
  is_space c = false -> match_here spaces pv (c :: s) i = None.
Proof.
  intros H. unfold match_here, spaces; simpl. unfold step; simpl.
  now rewrite H.
Qed.

Lemma star_spaces (sp t : jsstring) :
  forall (pv : option char) (i : nat),
    forallb is_space sp = true ->
    match t with [] => True | c :: _ => is_space c = false end ->
    exists pv',
      star is_space Some pv (sp ++ t) i []
      = Some (MState pv' t (i + List.length sp) []).
Proof.
  induction sp as [|a sp IH]; intros pv i Hsp Ht; simpl.
  - exists pv. rewrite Nat.add_0_r.
    destruct t as [|c t]; simpl; [reflexivity|]. now rewrite Ht.
  - simpl in Hsp. apply andb_true_iff in Hsp as [Ha Hsp].
    rewrite Ha.
    destruct (IH (Some a) (S i) Hsp Ht) as (pv' & ->).
    exists pv'. now rewrite Nat.add_succ_r.
Qed.

(** The separator tried at the start of a maximal run of white space. *)
Lemma spaces_match (pv : option char) (a : char) (sp t : jsstring) (i : nat) :
  forallb is_space (a :: sp) = true ->
  match t with [] => True | c :: _ => is_space c = false end ->
  exists res,
    match_here spaces pv (a :: sp ++ t) i = Some (S (List.length sp), res).
Proof.
  intros Hsp Ht. simpl in Hsp. apply andb_true_iff in Hsp as [Ha Hsp].
  unfold match_here, spaces; simpl. unfold step; simpl. rewrite Ha.
  unfold star_st; simpl.
  destruct (star_spaces sp t (Some a) (S i) Hsp Ht) as (pv' & ->).
  cbv zeta. cbn [st_pos st_caps].
  replace (S i + List.length sp - i)%nat with (S (List.length sp)) by lia.
  eexists. reflexivity.
Qed.

Lemma split_from_word (u s : jsstring) :
  forall (pv : option char) (i : nat) (cur : jsstring),
    Forall (fun c => is_space c = false) u ->
    exists pv',
      split_from spaces pv (u ++ s) i 0 cur
      = split_from spaces pv' s (i + List.length u) 0 (rev u ++ cur).
Proof.
  induction u as [|c u IH]; intros pv i cur Hu; simpl.
  - exists pv. now rewrite Nat.add_0_r.
  - inversion Hu as [|? ? Hc Hu']; subst.
    rewrite (spaces_fail pv c (u ++ s) i Hc).
    destruct (IH (Some c) (S i) (c :: cur) Hu') as (pv' & ->).
    exists pv'. rewrite Nat.add_succ_r. now rewrite <- app_assoc.
Qed.

Lemma split_from_skip (u s : jsstring) :
  forall (pv : option char) (i : nat),
    exists pv',
      split_from spaces pv (u ++ s) i (List.length u) []
      = split_from spaces pv' s (i + List.length u) 0 [].
Proof.
  induction u as [|c u IH]; intros pv i; simpl.
  - exists pv. now rewrite Nat.add_0_r.
  - destruct (IH (Some c) (S i)) as (pv' & ->).
    exists pv'. now rewrite Nat.add_succ_r.
Qed.

(** A declaration - a word, white space, a name - splits on white space
    into the word and the name. *)
Lemma split_declaration (kw sp name : jsstring) :
  kw <> [] -> Forall (fun c => is_space c = false) kw ->
  sp <> [] -> forallb is_space sp = true ->
  name <> [] -> Forall (fun c => is_space c = false) name ->
  Regex.split spaces (kw ++ sp ++ name) = [kw; name].
Proof.
  intros Hk Hkw Hs Hsp Hn Hname.
  destruct kw as [|k kw]; [contradiction|].
  destruct sp as [|a sp]; [contradiction|].
  destruct name as [|n name]; [contradiction|].
  assert (Hn0 : is_space n = false) by now inversion Hname.
  unfold Regex.split. cbn [app].
  change (k :: kw ++ a :: sp ++ n :: name)
    with ((k :: kw) ++ a :: sp ++ n :: name).
  destruct (split_from_word (k :: kw) (a :: sp ++ n :: name) None 0 [] Hkw)
    as (pv1 & ->).
  cbn [split_from].
  destruct (spaces_match pv1 a sp (n :: name) (0 + List.length (k :: kw))
              Hsp Hn0) as (res & ->).
  rewrite app_nil_r, rev_involutive. f_equal.
  destruct (split_from_skip sp (n :: name) (Some a)
              (S (0 + List.length (k :: kw)))) as (pv2 & ->).
  destruct (split_from_word (n :: name) [] pv2
              (S (0 + List.length (k :: kw)) + List.length sp) [] Hname)
    as (pv3 & E).
  rewrite app_nil_r in E. rewrite E. cbn [split_from].
  now rewrite app_nil_r, rev_involutive.
Qed.

Ltac break_sem :=
  repeat match goal with
    | H : exists _, _ |- _ => destruct H
    | H : _ /\ _ |- _ => destruct H
    | H : _ \/ _ |- _ => destruct H
    end;
  subst.

(** The shape of a match of the declaration pattern: one of the three
    keywords, white space, and a name held by capture 2. *)
Lemma declaration_shape (w : jsstring) (cs : list (nat * jsstring)) :
  sem varDeclarationPattern w cs ->
  exists kw sp name : jsstring,
    w = kw ++ sp ++ name
    /\ In kw [lit "var"; lit "let"; lit "const"]
    /\ sp <> [] /\ forallb is_space sp = true
    /\ name <> [] /\ forallb ident_char name = true
    /\ capture 2 cs = name.
Proof.
  intros H. unfold varDeclarationPattern, decl_keyword in H.
  simpl in H. break_sem.
  all: match goal with
       | |- context [?k ++ ?sp ++ ([?a] ++ ?n) ++ [] ++ []] =>
           exists k, sp, (a :: n)
       end.
  all: simpl; rewrite ?app_nil_r; repeat split; trivial;
    try tauto; try discriminate.
  all: apply andb_true_iff; split; trivial; now apply ident_start_char.
Qed.

Lemma forallb_not_space (name : jsstring) :
  forallb ident_char name = true ->
  Forall (fun c => is_space c = false) name.
Proof.
  induction name as [|c name IH]; simpl; intros H; constructor.
  - apply andb_true_iff in H as [H _]. now apply ident_char_not_space.
  - apply andb_true_iff in H as [_ H]. now apply IH.
Qed.

(** The second piece of the split of a declaration is the name that
    capture 2 holds: the two ways in which the source extracts the
    declared names agree, and the index 1 is always defined. *)
Lemma declared_names_captures (code : jsstring) :
  declared_names code
  = map (fun m => capture 2 (m_caps m))
        (match_all varDeclarationPattern code).
Proof.
  unfold declared_names. rewrite map_map.
  apply map_ext_in. intros res Hin.
  assert (Hs := match_all_from_sound varDeclarationPattern code None 0 0).
  rewrite Forall_forall in Hs. specialize (Hs res Hin).
  destruct (declaration_shape _ _ Hs)
    as (kw & sp & name & -> & Hkw & Hsp & Hsp' & Hn & Hname & ->).
  rewrite split_declaration; trivial.
  - simpl in Hkw. destruct Hkw as [<-|[<-|[<-|[]]]]; discriminate.
  - simpl in Hkw.
    destruct Hkw as [<-|[<-|[<-|[]]]]; repeat constructor.
  - now apply forallb_not_space.
Qed.

(** The average of the [rename-variables] case is the [avgLength] of
    [analyzeVariableNames]. *)
Lemma average_length_avgLength (code : jsstring) :
  average_length (declared_names code) = avgLength (analyzeVariableNames code).
Proof.
  rewrite declared_names_captures. reflexivity.
Qed.

(** ** The bonus of [rename-variables] *)

(** Decides the comparisons of the [switch] on a literal id. *)
Ltac decide_switch :=
  repeat match goal with
    | |- context [str_eqb (lit ?a) (lit ?b)] =>
        let v := eval vm_compute in (str_eqb (lit a) (lit b)) in
        change (str_eqb (lit a) (lit b)) with v
    end;
  cbv iota.

(** C3, as stated, fails: for the original ["let ab = 1;"] and the
    transformed ["let a = 1;"] the average length of the names decreases
    and there is one more one-letter name, so the signed formula gives -5,
    and the bonus of the source is 0. *)
Lemma rename_bonus_is_not_signed :
  calculateBonusPoints (lit "let ab = 1;") (lit "let a = 1;")
                       (lit "rename-variables") = 0
  /\ rename_bonus_signed (lit "let ab = 1;") (lit "let a = 1;") = -5
  /\ calculateBonusPoints (lit "let ab = 1;") (lit "let a = 1;")
                          (lit "rename-variables")
     <> rename_bonus_signed (lit "let ab = 1;") (lit "let a = 1;").
Proof.
  repeat split; try reflexivity. vm_compute. discriminate.
Qed.

(** C3, amended.  For every pair of inputs the [rename-variables] bonus is
    the rounded tenfold increase of the average length of the declared
    names (0 without increase), the averages, their difference and the
    product being the binary64 numbers of the source, plus 5 for each
    one-letter declared name fewer in the transformed code than in the
    original; the second term is 0 when the transformed code has as many
    one-letter names or more. *)
Theorem rename_bonus_guarded (originalCode transformedCode : jsstring) :
  calculateBonusPoints originalCode transformedCode (lit "rename-variables")
  = name_length_bonus originalCode transformedCode
    + 5 * Z.max 0 (single_letter_reduction originalCode transformedCode).
Proof.
  unfold calculateBonusPoints. decide_switch.
  unfold name_length_bonus, single_letter_reduction. cbv zeta.
  set (so := single_letter_count (declared_names originalCode)).
  set (st := single_letter_count (declared_names transformedCode)).
  destruct (gtb (b64 (Fin (average_length (declared_names transformedCode))))
                (b64 (Fin (average_length (declared_names originalCode)))));
    destruct (Z.ltb_spec st so); lia.
Qed.

(** The first term is a binary64 computation: for names of average
    length 5/4 in the original and 7/5 in the transformed code the
    difference is just below 3/20 and the product just below 3/2, so the
    term is 1 and the score 29. *)
Lemma rename_bonus_binary64 :
  average_length (declared_names (lit "var a;var b;var c;var dd;")) = 5 # 4
  /\ average_length
       (declared_names (lit "var a;var b;var c;var dd;var ee;")) = 7 # 5
  /\ fmul (fsub (b64 (Fin (7 # 5))) (b64 (Fin (5 # 4)))) (of_Z 10)
     = Fin (1688849860263935 # 1125899906842624)
  /\ calculateBonusPoints (lit "var a;var b;var c;var dd;")
                          (lit "var a;var b;var c;var dd;var ee;")
                          (lit "rename-variables") = 1
  /\ calculateScore (lit "var a;var b;var c;var dd;")
                    (lit "var a;var b;var c;var dd;var ee;")
                    (lit "rename-variables") = of_Z 29.
Proof.
  repeat split; vm_compute; reflexivity.
Qed.

(** ** The bonus of [minify] *)

Lemma Qltb_comp (a a' b b' : Q) :
  (a == a')%Q -> (b == b')%Q -> Qltb a b = Qltb a' b'.
Proof.
  intros Ha Hb. unfold Qltb. now rewrite Ha, Hb.
Qed.

Lemma size_reduction_ratio (originalCode transformedCode : jsstring) :
  0 < len originalCode ->
  exists q : Q,
    size_reduction originalCode transformedCode = Fin q
    /\ (q == reduction_ratio originalCode transformedCode)%Q.
Proof.
  intros Hpos. unfold size_reduction, reduction_ratio.
  set (a := len originalCode) in *. set (b := len transformedCode).
  unfold of_Z, sub, neg, add, div, fin.
  assert (Hs : Qsign (inject_Z a) = Gt).
  { unfold Qsign; simpl. now apply Z.compare_gt_iff. }
  rewrite Hs. eexists; split; [reflexivity|].
  rewrite !Qred_correct.
  unfold Zminus. rewrite inject_Z_plus, inject_Z_opp. reflexivity.
Qed.

Lemma gtb_size_reduction (originalCode transformedCode : jsstring) (c : Q) :
  0 < len originalCode ->
  gtb (size_reduction originalCode transformedCode) (Fin c)
  = Qltb c (reduction_ratio originalCode transformedCode).
Proof.
  intros Hpos.
  destruct (size_reduction_ratio originalCode transformedCode Hpos)
    as (q & -> & Hq).
  unfold gtb. rewrite ltb_Fin. now apply Qltb_comp.
Qed.

Lemma minify_bonus_tier (originalCode transformedCode : jsstring) :
  0 < len originalCode ->
  calculateBonusPoints originalCode transformedCode (lit "minify")
  = minify_tier (reduction_ratio originalCode transformedCode).
Proof.
  intros Hpos. unfold calculateBonusPoints. decide_switch. cbv zeta.
  change (dec 5 10) with (Fin (1 # 2)).
  change (dec 3 10) with (Fin (3 # 10)).
  change (dec 1 10) with (Fin (1 # 10)).
  rewrite !gtb_size_reduction by exact Hpos.
  reflexivity.
Qed.

Lemma minify_tier_monotone (r1 r2 : Q) :
  (r1 < r2)%Q -> minify_tier r1 <= minify_tier r2.
Proof.
  intros H. unfold minify_tier.
  destruct (Qltb (1 # 2) r1) eqn:E1.
  { apply Qltb_lt in E1.
    assert (E2 : Qltb (1 # 2) r2 = true)
      by (apply Qltb_lt; eapply Qlt_trans; eassumption).
    rewrite E2. lia. }
  destruct (Qltb (1 # 2) r2); [destruct (Qltb (3 # 10) r1);
    destruct (Qltb (1 # 10) r1); lia|].
  destruct (Qltb (3 # 10) r1) eqn:E3.
  { apply Qltb_lt in E3.
    assert (E4 : Qltb (3 # 10) r2 = true)
      by (apply Qltb_lt; eapply Qlt_trans; eassumption).
    rewrite E4. lia. }
  destruct (Qltb (3 # 10) r2); [destruct (Qltb (1 # 10) r1); lia|].
  destruct (Qltb (1 # 10) r1) eqn:E5.
  { apply Qltb_lt in E5.
    assert (E6 : Qltb (1 # 10) r2 = true)
      by (apply Qltb_lt; eapply Qlt_trans; eassumption).
    rewrite E6. lia. }
  destruct (Qltb (1 # 10) r2); lia.
Qed.

(** C8.  For an original of positive length and two transformed variants A
    and B, the [minify] bonus of each is the tier of its size-reduction
    ratio (above 0.5: 30, above 0.3: 20, above 0.1: 10, else 0), and when
    the ratio of B is strictly greater than that of A the bonus of B is at
    least the bonus of A. *)
Theorem minify_bonus_monotone (originalCode variantA variantB : jsstring) :
  0 < len originalCode ->
  (reduction_ratio originalCode variantA
   < reduction_ratio originalCode variantB)%Q ->
  calculateBonusPoints originalCode variantA (lit "minify")
  = minify_tier (reduction_ratio originalCode variantA)
  /\ calculateBonusPoints originalCode variantB (lit "minify")
     = minify_tier (reduction_ratio originalCode variantB)
  /\ calculateBonusPoints originalCode variantA (lit "minify")
     <= calculateBonusPoints originalCode variantB (lit "minify").
Proof.
  intros Hpos Hlt.
  rewrite !minify_bonus_tier by exact Hpos.
  repeat split. now apply minify_tier_monotone.
Qed.

Lemma minify_bonus_monotone_witness :
  0 < len (lit "0123456789")
  /\ (reduction_ratio (lit "0123456789") (lit "01234567")
      < reduction_ratio (lit "0123456789") (lit "0123"))%Q
  /\ calculateBonusPoints (lit "0123456789") (lit "01234567") (lit "minify")
     = minify_tier (reduction_ratio (lit "0123456789") (lit "01234567"))
  /\ calculateBonusPoints (lit "0123456789") (lit "0123") (lit "minify")
     = minify_tier (reduction_ratio (lit "0123456789") (lit "0123"))
  /\ calculateBonusPoints (lit "0123456789") (lit "01234567") (lit "minify")
     <= calculateBonusPoints (lit "0123456789") (lit "0123") (lit "minify").
Proof.
  split; [reflexivity|]. split; [reflexivity|].
  apply (minify_bonus_monotone (lit "0123456789") (lit "01234567")
           (lit "0123")); reflexivity.
Defined.

(** ** Rounding and clamping *)

Lemma round_inject_Z (z : Z) : Qround_half_up (inject_Z z) = z.
Proof.
  unfold Qround_half_up, Qfloor, Qplus, inject_Z; simpl.
  symmetry. apply (Z.div_unique (z * 2 + 1) 2 z 1); lia.
Qed.

Lemma round_comp (a b : Q) :
  (a == b)%Q -> Qround_half_up a = Qround_half_up b.
Proof.
  intros H. unfold Qround_half_up. now rewrite H.
Qed.

Lemma clamp_inject_Z (z : Z) :
  (clamp (inject_Z z) 0 100 == inject_Z (Z.max 0 (Z.min 100 z)))%Q.
Proof.
  unfold clamp.
  destruct (Z.le_gt_cases 100 z) as [H|H].
  - rewrite Z.min_l by lia. rewrite Z.max_r by lia.
    rewrite Q.min_l by (change 100%Q with (inject_Z 100);
                        now rewrite <- Zle_Qle).
    now rewrite Q.max_r.
  - rewrite Z.min_r by lia.
    rewrite Q.min_r by (change 100%Q with (inject_Z 100);
                        rewrite <- Zle_Qle; lia).
    destruct (Z.le_gt_cases 0 z) as [H0|H0].
    + rewrite Z.max_r by lia.
      apply Q.max_r. change 0%Q with (inject_Z 0). now rewrite <- Zle_Qle.
    + rewrite Z.max_l by lia.
      apply Q.max_l. change 0%Q with (inject_Z 0). rewrite <- Zle_Qle. lia.
Qed.

(** On an integer sum, rounding then clamping, as the source does, is
    clamping then rounding. *)
Lemma round_clamp (z : Z) :
  Z.max 0 (Z.min 100 (Qround_half_up (inject_Z z)))
  = Qround_half_up (clamp (inject_Z z) 0 100).
Proof.
  rewrite (round_comp _ _ (clamp_inject_Z z)).
  now rewrite !round_inject_Z.
Qed.

(** ** Readability *)

(** C4.  The readability score is an integer between 0 and 100; it is 0
    for an argument that is not a string and for the empty string; for
    any other string it is the sum of the signals, clamped to the range
    0-100 and rounded; and the score of ["eval('x');"] is 90. *)
Theorem readability_score_range (code : value) :
  0 <= calculateReadabilityScore code <= 100
  /\ calculateReadabilityScore code
     = match code with
       | VStr (c :: s) =>
           Qround_half_up (clamp (inject_Z (readability_sum (c :: s))) 0 100)
       | _ => 0
       end
  /\ calculateReadabilityScore (VStr (lit "eval('x');")) = 90.
Proof.
  assert (E : calculateReadabilityScore code
              = match code with
                | VStr (c :: s) =>
                    Qround_half_up
                      (clamp (inject_Z (readability_sum (c :: s))) 0 100)
                | _ => 0
                end).
  { unfold calculateReadabilityScore.
    destruct code as [| |b|n|s|]; cbn [is_string negb];
      try (rewrite orb_true_r; reflexivity).
    destruct s as [|c s]; simpl; [reflexivity|]. apply round_clamp. }
  split; [|split; [exact E|reflexivity]].
  unfold calculateReadabilityScore.
  destruct (negb (to_boolean code) || negb (is_string code))%bool; [lia|].
  destruct code; lia.
Qed.

(** ** Challenge mode *)

(** C5.  For every pair of inputs the challenge score is 50 plus the four
    components of the breakdown, clamped to the range 0-100 and rounded;
    it is an integer between 0 and 100 and it is the [total] of the
    breakdown. *)
Theorem challenge_score_total (originalCode transformedCode : jsstring) :
  let r := getChallengeScore originalCode transformedCode in
  let b := breakdown r in
  challenge_score r
  = Qround_half_up
      (clamp (inject_Z (50 + (tokenCount b + variableNameImprovement b
                              + evalRemoval b + formatting b))) 0 100)
  /\ 0 <= challenge_score r <= 100
  /\ challenge_score r = total b
  /\ tokenCount b = token_component originalCode transformedCode
  /\ variableNameImprovement b = name_component originalCode transformedCode
  /\ evalRemoval b = eval_component originalCode transformedCode
  /\ formatting b = assessFormatting originalCode transformedCode.
Proof.
  unfold getChallengeScore; simpl.
  split; [apply round_clamp|].
  split; [lia|]. repeat split.
Qed.

Lemma token_component_zero_original (originalCode transformedCode : jsstring) :
  countTokens originalCode = 0 ->
  token_component originalCode transformedCode
  = if countTokens transformedCode =? 0 then 0 else -5.
Proof.
  intros H0. unfold token_component. rewrite H0. cbv zeta.
  assert (Hn : 0 <= countTokens transformedCode)
    by (unfold countTokens; lia).
  unfold of_Z, div.
  change (Qsign (inject_Z 0)) with Eq.
  unfold Qsign; simpl Qnum.
  destruct (Z.eqb_spec (countTokens transformedCode) 0) as [->|Hne].
  - reflexivity.
  - assert (Hc : (countTokens transformedCode ?= 0) = Gt)
      by (apply Z.compare_gt_iff; lia).
    rewrite Hc. reflexivity.
Qed.

(** C10.  When the original code has no token, [getChallengeScore] still
    gives a score between 0 and 100 that is the total of its breakdown;
    the [tokenCount] component is 0 if the transformed code has no token
    either and -5 if it has at least one; the three other components are
    the ones computed from the variable names, the [eval] calls and the
    formatting, in which the token counts take no part. *)
Theorem challenge_score_zero_token_original
    (originalCode transformedCode : jsstring) :
  countTokens originalCode = 0 ->
  let r := getChallengeScore originalCode transformedCode in
  let b := breakdown r in
  tokenCount b = (if countTokens transformedCode =? 0 then 0 else -5)
  /\ variableNameImprovement b = name_component originalCode transformedCode
  /\ evalRemoval b = eval_component originalCode transformedCode
  /\ formatting b = assessFormatting originalCode transformedCode
  /\ 0 <= challenge_score r <= 100
  /\ challenge_score r = total b
  /\ total b
     = Z.max 0 (Z.min 100 (50 + (tokenCount b + variableNameImprovement b
                                 + evalRemoval b + formatting b))).
Proof.
  intros H0 r b.
  split; [exact (token_component_zero_original _ _ H0)|].
  subst r b. unfold getChallengeScore; simpl.
  rewrite round_inject_Z.
  repeat split; lia.
Qed.

Lemma challenge_score_zero_token_original_witness :
  countTokens (lit " ;; ") = 0
  /\ tokenCount (breakdown (getChallengeScore (lit " ;; ") (lit "a = 1"))) = -5
  /\ tokenCount (breakdown (getChallengeScore (lit " ;; ") (lit "()"))) = 0.
Proof.
  split; [reflexivity|].
  split.
  - exact (proj1 (challenge_score_zero_token_original
                    (lit " ;; ") (lit "a = 1") eq_refl)).
  - exact (proj1 (challenge_score_zero_token_original
                    (lit " ;; ") (lit "()") eq_refl)).
Defined.

(** ** The leaderboard *)

Lemma ltb_irrefl (x : num) : ltb x x = false.
Proof.
  destruct x; simpl; trivial.
  now rewrite (proj1 (Qeq_alt q q) (Qeq_refl q)).
Qed.

Lemma gtb_irrefl (x : num) : gtb x x = false.
Proof.
  apply ltb_irrefl.
Qed.

(** On numbers the comparison function of [getLeaderboard] is positive
    exactly when its first argument has the smaller score. *)
Lemma compare_scores_positive (x y : num) :
  x <> NaN -> y <> NaN -> gtb (sub y x) (of_Z 0) = ltb x y.
Proof.
  intros Hx Hy.
  destruct x as [| | |a]; [contradiction| | |];
    (destruct y as [| | |b]; [contradiction| | |]); try reflexivity.
  unfold gtb, sub, neg, add, of_Z, fin.
  rewrite !ltb_Fin.
  destruct (Qltb a b) eqn:E.
  - apply Qltb_lt. apply Qltb_lt in E.
    rewrite !Qred_correct. unfold inject_Z. lra.
  - apply Qltb_ge. apply Qltb_ge in E.
    rewrite !Qred_correct. unfold inject_Z. lra.
Qed.

Lemma leb_negb_ltb (x y : num) :
  x <> NaN -> y <> NaN -> leb y x = negb (ltb x y).
Proof.
  intros Hx Hy.
  destruct x as [| | |a]; [contradiction| | |];
    (destruct y as [| | |b]; [contradiction| | |]); try reflexivity.
  unfold leb, ltb. rewrite <- (Qcompare_antisym a b).
  now destruct (a ?= b)%Q.
Qed.

Lemma ltb_leb (x y : num) : ltb x y = true -> leb x y = true.
Proof.
  destruct x as [| | |a], y as [| | |b]; simpl; trivial; try discriminate.
  now destruct (a ?= b)%Q.
Qed.

Lemma leb_trans (x y z : num) :
  leb x y = true -> leb y z = true -> leb x z = true.
Proof.
  destruct x as [| | |a], y as [| | |b], z as [| | |c]; simpl; trivial;
    try discriminate.
  intros H1 H2.
  assert (L1 : (a <= b)%Q)
    by (apply Qle_alt; destruct (a ?= b)%Q; discriminate).
  assert (L2 : (b <= c)%Q)
    by (apply Qle_alt; destruct (b ?= c)%Q; discriminate).
  assert (L3 := Qle_trans _ _ _ L1 L2).
  destruct (a ?= c)%Q eqn:E; trivial.
  apply Qgt_alt in E. exfalso. exact (Qlt_not_le _ _ E L3).
Qed.

Lemma ltb_not_both_equal (x y v : num) :
  ltb x y = true -> num_eqb x v = true -> num_eqb y v = false.
Proof.
  destruct x as [| | |a], y as [| | |b], v as [| | |c]; simpl; trivial;
    try discriminate.
  intros H1 H2.
  destruct (Qeq_bool b c) eqn:E; trivial.
  apply Qeq_bool_iff in H2, E.
  assert (a == b)%Q by (rewrite H2, E; reflexivity).
  apply Qeq_alt in H. now rewrite H in H1.
Qed.

Section Leaderboard.

Variable T : Type.

Lemma sorts_after_scores (x y : entry T) :
  is_number x -> is_number y ->
  sorts_after by_score x y = ltb (score x) (score y).
Proof.
  intros Hx Hy. unfold sorts_after, by_score.
  now apply compare_scores_positive.
Qed.

Lemma insert_perm (x : entry T) (l : list (entry T)) :
  Permutation (x :: l) (insert by_score x l).
Proof.
  induction l as [|y l IH]; simpl; [reflexivity|].
  destruct (sorts_after by_score x y); [|reflexivity].
  rewrite perm_swap. now apply perm_skip.
Qed.

Lemma Array_sort_perm (l : list (entry T)) :
  Permutation l (Array_sort by_score l).
Proof.
  induction l as [|x l IH]; simpl; [constructor|].
  rewrite <- insert_perm. now apply perm_skip.
Qed.

Lemma insert_sorted (x : entry T) (l : list (entry T)) :
  is_number x -> Forall is_number l ->
  StronglySorted score_ge l ->
  StronglySorted score_ge (insert by_score x l).
Proof.
  intros Hx Hl Hs. induction Hs as [|y l Hs IH Hy]; simpl.
  - constructor; constructor.
  - inversion Hl as [|? ? Hny Hnl]; subst.
    rewrite (sorts_after_scores x y Hx Hny).
    destruct (ltb (score x) (score y)) eqn:E.
    + constructor; [now apply IH|].
      apply (Permutation_Forall (insert_perm x l)).
      constructor; [|exact Hy].
      unfold score_ge. now apply ltb_leb.
    + assert (Hxy : score_ge x y).
      { unfold score_ge. rewrite (leb_negb_ltb _ _ Hx Hny). now rewrite E. }
      constructor; [constructor; assumption|].
      constructor; [exact Hxy|].
      eapply Forall_impl; [|exact Hy].
      intros z Hz. unfold score_ge in *. eapply leb_trans; eassumption.
Qed.

Lemma Array_sort_sorted (l : list (entry T)) :
  Forall is_number l -> StronglySorted score_ge (Array_sort by_score l).
Proof.
  induction l as [|x l IH]; simpl; intros Hl; [constructor|].
  inversion Hl; subst.
  apply insert_sorted; trivial; [|now apply IH].
  now apply (Permutation_Forall (Array_sort_perm l)).
Qed.

Lemma insert_filter (v : num) (x : entry T) (l : list (entry T)) :
  is_number x -> Forall is_number l ->
  filter (fun e => num_eqb (score e) v) (insert by_score x l)
  = filter (fun e => num_eqb (score e) v) (x :: l).
Proof.
  intros Hx Hl. induction Hl as [|y l Hy Hl IH]; [reflexivity|].
  simpl insert. rewrite (sorts_after_scores x y Hx Hy).
  destruct (ltb (score x) (score y)) eqn:E; [|reflexivity].
  simpl filter at 1. rewrite IH. simpl.
  destruct (num_eqb (score x) v) eqn:Ex; [|reflexivity].
  now rewrite (ltb_not_both_equal _ _ _ E Ex).
Qed.

Lemma Array_sort_stable (v : num) (l : list (entry T)) :
  Forall is_number l ->
  filter (fun e => num_eqb (score e) v) (Array_sort by_score l)
  = filter (fun e => num_eqb (score e) v) l.
Proof.
  induction l as [|x l IH]; simpl; intros Hl; [reflexivity|].
  inversion Hl; subst.
  rewrite insert_filter; trivial.
  - simpl. now rewrite IH.
  - now apply (Permutation_Forall (Array_sort_perm l)).
Qed.

Lemma Array_sort_of_sorted (l : list (entry T)) :
  Forall is_number l -> StronglySorted score_ge l ->
  Array_sort by_score l = l.
Proof.
  intros Hl Hs. induction Hs as [|x l Hs IH Hx]; simpl; [reflexivity|].
  inversion Hl as [|? ? Hnx Hnl]; subst.
  rewrite (IH Hnl).
  destruct l as [|y l']; [reflexivity|].
  inversion Hnl as [|? ? Hny _]; subst.
  inversion Hx as [|? ? Hxy _]; subst.
  simpl. rewrite (sorts_after_scores x y Hnx Hny).
  unfold score_ge in Hxy. rewrite (leb_negb_ltb _ _ Hnx Hny) in Hxy.
  apply negb_true_iff in Hxy. now rewrite Hxy.
Qed.

Lemma getLeaderboard_sorted_stable_aux (entries : list (entry T)) :
  Forall is_number entries ->
  Permutation entries (getLeaderboard entries)
  /\ StronglySorted score_ge (getLeaderboard entries)
  /\ (forall v : num,
        filter (fun e => num_eqb (score e) v) (getLeaderboard entries)
        = filter (fun e => num_eqb (score e) v) entries).
Proof.
  intros Hn. unfold getLeaderboard.
  split; [apply Array_sort_perm|].
  split; [now apply Array_sort_sorted|].
  intros v; now apply Array_sort_stable.
Qed.

(** C9.  For entries whose scores are numbers, [getLeaderboard] returns a
    permutation of its input in descending order of score; the entries of
    any one score keep the order they have in the input; and an input
    already in descending order is returned as it is. *)
Theorem getLeaderboard_sorted_stable (entries : list (entry T)) :
  Forall is_number entries ->
  Permutation entries (getLeaderboard entries)
  /\ StronglySorted score_ge (getLeaderboard entries)
  /\ (forall v : num,
        filter (fun e => num_eqb (score e) v) (getLeaderboard entries)
        = filter (fun e => num_eqb (score e) v) entries)
  /\ (StronglySorted score_ge entries -> getLeaderboard entries = entries).
Proof.
  intros Hn.
  destruct (getLeaderboard_sorted_stable_aux entries Hn) as (Hp & Hs & Hf).
  repeat split; trivial.
  unfold getLeaderboard. now apply Array_sort_of_sorted.
Qed.

End Leaderboard.

Lemma getLeaderboard_sorted_stable_witness :
  Forall is_number example_board
  /\ Permutation example_board (getLeaderboard example_board)
  /\ StronglySorted score_ge (getLeaderboard example_board)
  /\ (forall v : num,
        filter (fun e => num_eqb (score e) v) (getLeaderboard example_board)
        = filter (fun e => num_eqb (score e) v) example_board)
  /\ (StronglySorted score_ge example_board ->
      getLeaderboard example_board = example_board).
Proof.
  assert (H : Forall is_number example_board)
    by (repeat constructor; discriminate).
  split; [exact H|].
  exact (getLeaderboard_sorted_stable nat example_board H).
Defined.

Lemma getLeaderboard_example :
  getLeaderboard example_board
  = [ Entry (of_Z 20) 1%nat; Entry (of_Z 20) 3%nat; Entry (of_Z 10) 2%nat;
      Entry (of_Z 5) 0%nat ]
  /\ map score (getLeaderboard [ Entry (of_Z 5) tt; Entry (of_Z 20) tt;
                                 Entry (of_Z 10) tt ])
     = [of_Z 20; of_Z 10; of_Z 5].
Proof.
  split; reflexivity.
Qed.

(** The result does not depend on the sorting algorithm: a list with the
    three properties above - a permutation of the entries, in descending
    order of score, the entries of each score in their input order - is
    the list [getLeaderboard] returns. *)
Section StableSortUnique.

Variable T : Type.

Lemma num_eqb_refl (x : num) : x <> NaN -> num_eqb x x = true.
Proof.
  destruct x; simpl; trivial; [contradiction|].
  intros _. apply Qeq_bool_iff. reflexivity.
Qed.

Lemma leb_antisym_eqb (x y : num) :
  leb x y = true -> leb y x = true -> num_eqb x y = true.
Proof.
  destruct x as [| | |a], y as [| | |b]; simpl; trivial; try discriminate.
  intros H1 H2. apply Qeq_bool_iff. apply Qle_antisym.
  - apply Qle_alt. destruct (a ?= b)%Q; discriminate.
  - apply Qle_alt. destruct (b ?= a)%Q; discriminate.
Qed.

Lemma leb_refl (x : num) : x <> NaN -> leb x x = true.
Proof.
  destruct x; simpl; trivial; [contradiction|].
  intros _. now rewrite (proj1 (Qeq_alt q q) (Qeq_refl q)).
Qed.

Lemma head_score_max (x : entry T) (l : list (entry T)) (y : entry T) :
  is_number x -> Forall (score_ge x) l -> In y (x :: l) -> score_ge x y.
Proof.
  intros Hx Hl [<-|Hy].
  - unfold score_ge. now apply leb_refl.
  - rewrite Forall_forall in Hl. now apply Hl.
Qed.

Lemma sorted_stable_unique (l1 l2 : list (entry T)) :
  Forall is_number l1 ->
  Permutation l1 l2 ->
  StronglySorted score_ge l1 -> StronglySorted score_ge l2 ->
  (forall v : num,
     filter (fun e => num_eqb (score e) v) l1
     = filter (fun e => num_eqb (score e) v) l2) ->
  l1 = l2.
Proof.
  revert l2. induction l1 as [|x l1 IH]; intros l2 Hn Hp Hs1 Hs2 Hf.
  - apply Permutation_nil in Hp. now subst.
  - destruct l2 as [|y l2].
    { apply Permutation_sym, Permutation_nil in Hp. discriminate. }
    inversion Hn as [|? ? Hx Hn1]; subst.
    inversion Hs1 as [|? ? Hs1' Hx1]; subst.
    inversion Hs2 as [|? ? Hs2' Hy2]; subst.
    assert (Hy : is_number y).
    { assert (Hin : In y (x :: l1))
        by (apply (Permutation_in y (Permutation_sym Hp)); now left).
      rewrite Forall_forall in Hn. now apply Hn. }
    assert (Hxy : score_ge x y).
    { apply (head_score_max x l1); trivial.
      apply (Permutation_in y (Permutation_sym Hp)). now left. }
    assert (Hyx : score_ge y x).
    { apply (head_score_max y l2); trivial.
      apply (Permutation_in x Hp). now left. }
    assert (Heq : num_eqb (score y) (score x) = true)
      by (apply leb_antisym_eqb; assumption).
    assert (Exy : x = y).
    { specialize (Hf (score x)). simpl in Hf.
      rewrite (num_eqb_refl _ Hx), Heq in Hf. congruence. }
    subst y. f_equal.
    apply IH; trivial.
    + now apply Permutation_cons_inv with (a := x).
    + intros v. specialize (Hf v). simpl in Hf.
      destruct (num_eqb (score x) v); congruence.
Qed.

(** X25.  [getLeaderboard] returns the only list that is a permutation of
    the entries, in descending order of score, with the entries of each
    score in their input order (for scores that are numbers). *)
Theorem getLeaderboard_unique (entries sorted : list (entry T)) :
  Forall is_number entries ->
  Permutation entries sorted ->
  StronglySorted score_ge sorted ->
  (forall v : num,
     filter (fun e => num_eqb (score e) v) sorted
     = filter (fun e => num_eqb (score e) v) entries) ->
  sorted = getLeaderboard entries.
Proof.
  intros Hn Hp Hs Hf.
  destruct (getLeaderboard_sorted_stable_aux T entries Hn)
    as (Hp' & Hs' & Hf').
  apply sorted_stable_unique; trivial.
  - now apply (Permutation_Forall Hp).
  - now rewrite <- Hp.
  - intros v. now rewrite Hf, Hf'.
Qed.

End StableSortUnique.

(** ** The scenarios of the specification *)

Lemma scenario_rename_variables :
  calculateBonusPoints (lit "let x = 1;") (lit "let xValue = 1;")
                       (lit "rename-variables") = 55
  /\ calculateScore (lit "let x = 1;") (lit "let xValue = 1;")
                    (lit "rename-variables") = of_Z 88.
Proof.
  split; reflexivity.
Qed.

Lemma scenario_eval_removed :
  getChallengeScore (lit "eval(x);") (lit "const y = x;")
  = Challenge 78 (Breakdown 0 8 20 0 78).
Proof.
  reflexivity.
Qed.

(** The same computation in challenge mode: 3 names of average length 5/3
    against 48 names of average length 101/48 give 3 points for the
    names, the product being just below 7/2. *)
Lemma challenge_names_binary64 :
  avgLength (analyzeVariableNames (lit "var a;var bb;var cc;")) = 5 # 3
  /\ avgLength (analyzeVariableNames many_names) = 101 # 48
  /\ getChallengeScore (lit "var a;var bb;var cc;") many_names
     = Challenge 48 (Breakdown (-5) 3 0 0 48).
Proof.
  repeat split; vm_compute; reflexivity.
Qed.

Lemma scenario_empty_inputs :
  calculateComplexityFactor (lit "") (lit "") = of_Z 1
  /\ calculateReadabilityScore (VStr (lit "")) = 0
  /\ getChallengeScore (lit "") (lit "")
     = Challenge 50 (Breakdown 0 0 0 0 50).
Proof.
  repeat split; reflexivity.
Qed.

(** * Further properties of the scoring module *)

(** ** The score is an integer or [NaN] *)

Lemma complexity_factor_finite (originalCode transformedCode : jsstring) :
  exists q : Q,
    calculateComplexityFactor originalCode transformedCode = Fin q
    /\ (1 <= q <= 9 # 4)%Q.
Proof.
  unfold calculateComplexityFactor.
  rewrite length_factor_thresholds, change_factor_thresholds.
  fold (change_ratio originalCode transformedCode).
  assert (Hl := length_factor_cases (len originalCode)).
  assert (Hc := change_factor_cases (change_ratio originalCode transformedCode)).
  simpl in Hl, Hc.
  destruct Hl as [<-|[<-|[<-|[<-|[]]]]];
    destruct Hc as [<-|[<-|[<-|[<-|[]]]]];
    (eexists; split; [reflexivity|]; split; discriminate).
Qed.

Lemma inherited_iff (transformerId : jsstring) :
  existsb (str_eqb transformerId) Object_prototype_keys = true
  <-> inherited transformerId.
Proof.
  unfold inherited. rewrite existsb_exists. split.
  - intros (k & Hk & E). apply str_eqb_eq in E. now subst.
  - intros H. exists transformerId. split; trivial. now apply str_eqb_eq.
Qed.

Lemma own_points_positive (transformerId : jsstring) (v : Z) :
  own_property TRANSFORMATION_POINTS transformerId = Some v -> 10 <= v <= 40.
Proof.
  unfold TRANSFORMATION_POINTS. simpl.
  repeat match goal with
    | |- context [if ?b then _ else _] => destruct b
    end;
  intros [= <-] || discriminate; lia.
Qed.

Lemma table_points_range (transformerId : jsstring) :
  5 <= table_points transformerId <= 40.
Proof.
  unfold table_points.
  destruct (own_property TRANSFORMATION_POINTS transformerId) eqn:E; [|lia].
  apply own_points_positive in E. lia.
Qed.

Lemma basePoints_table (transformerId : jsstring) :
  ~ inherited transformerId ->
  basePoints transformerId = of_Z (table_points transformerId).
Proof.
  intros Hi. unfold basePoints, get_TRANSFORMATION_POINTS, table_points.
  destruct (own_property TRANSFORMATION_POINTS transformerId) as [v|] eqn:E.
  - apply own_points_positive in E.
    unfold to_boolean, of_Z.
    assert (Hq : Qeq_bool (inject_Z v) 0 = false).
    { destruct (Qeq_bool (inject_Z v) 0) eqn:Eq; trivial.
      apply Qeq_bool_iff in Eq. unfold Qeq in Eq; simpl in Eq. lia. }
    now rewrite Hq.
  - destruct (existsb (str_eqb transformerId) Object_prototype_keys) eqn:Ex;
      trivial.
    apply inherited_iff in Ex. contradiction.
Qed.

(** The score of an id that is not an inherited name, once the complexity
    factor is known. *)
Lemma score_formula (originalCode transformedCode transformerId : jsstring)
    (q : Q) :
  ~ inherited transformerId ->
  calculateComplexityFactor originalCode transformedCode = Fin q ->
  calculateScore originalCode transformedCode transformerId
  = of_Z (Qround_half_up
            (inject_Z (table_points transformerId) * q
             + inject_Z (calculateBonusPoints originalCode transformedCode
                                              transformerId))).
Proof.
  intros Hi Hq. unfold calculateScore.
  rewrite Hq, (basePoints_table _ Hi).
  unfold of_Z at 1 2, mul, add, fin, Math_round. f_equal.
  apply round_comp. now rewrite !Qred_correct.
Qed.

(** X1.  [calculateScore] returns [NaN] exactly for the ids that are names
    inherited from [Object.prototype]; for every other id, listed or not,
    and every pair of strings, empty ones included, it returns an
    integer. *)
Theorem calculateScore_integer_or_nan
    (originalCode transformedCode transformerId : jsstring) :
  (inherited transformerId
   /\ calculateScore originalCode transformedCode transformerId = NaN)
  \/ (~ inherited transformerId
      /\ exists z : Z,
           calculateScore originalCode transformedCode transformerId
           = of_Z z).
Proof.
  destruct (existsb (str_eqb transformerId) Object_prototype_keys) eqn:E.
  - left. apply inherited_iff in E. split; trivial.
    now apply inherited_score.
  - right.
    assert (Hi : ~ inherited transformerId).
    { intros H. apply inherited_iff in H. congruence. }
    split; trivial.
    destruct (complexity_factor_finite originalCode transformedCode)
      as (q & Hq & _).
    eexists. exact (score_formula _ _ _ q Hi Hq).
Qed.

(** ** A transformation that changes nothing *)

Lemma Qltb_irrefl (a : Q) : Qltb a a = false.
Proof. apply Qltb_ge. apply Qle_refl. Qed.

Lemma size_reduction_empty_original (transformedCode : jsstring) :
  size_reduction [] transformedCode
  = match transformedCode with [] => NaN | _ :: _ => NInf end.
Proof.
  destruct transformedCode as [|c t]; [reflexivity|].
  unfold size_reduction, len.
  set (n := Z.of_nat (List.length (c :: t))).
  assert (Hn : 0 < n) by (subst n; simpl List.length; lia).
  change (of_Z (Z.of_nat (List.length (@nil char)))) with (Fin 0).
  unfold of_Z, sub, neg, add, div, fin.
  change (Qsign 0) with Eq.
  rewrite Qsign_Qred, Qsign_compare.
  assert (H : (0 + Qred (- inject_Z n) < 0)%Q).
  { rewrite (Qred_correct (- inject_Z n)).
    assert (H0 : (0 < inject_Z n)%Q)
      by (change 0%Q with (inject_Z 0); now rewrite <- Zlt_Qlt).
    lra. }
  now rewrite (proj1 (Qlt_alt _ _) H).
Qed.

Lemma reduction_ratio_growth (originalCode transformedCode : jsstring) :
  0 < len originalCode -> len originalCode <= len transformedCode ->
  (reduction_ratio originalCode transformedCode <= 0)%Q.
Proof.
  intros Hpos Hle. unfold reduction_ratio.
  apply Qle_shift_div_r.
  - change 0%Q with (inject_Z 0). now rewrite <- Zlt_Qlt.
  - setoid_replace (0 * inject_Z (len originalCode))%Q with (inject_Z 0)
      by ring.
    rewrite <- Zle_Qle. lia.
Qed.

(** No size tier is reached when the code did not shrink. *)
Lemma gtb_size_reduction_growth
    (originalCode transformedCode : jsstring) (c : Q) :
  (0 <= c)%Q -> len originalCode <= len transformedCode ->
  gtb (size_reduction originalCode transformedCode) (Fin c) = false.
Proof.
  intros Hc Hle.
  destruct originalCode as [|a o].
  - rewrite size_reduction_empty_original.
    now destruct transformedCode.
  - assert (Hpos : 0 < len (a :: o))
      by (unfold len; simpl List.length; lia).
    rewrite (gtb_size_reduction _ _ _ Hpos).
    apply Qltb_ge.
    eapply Qle_trans; [|exact Hc].
    now apply reduction_ratio_growth.
Qed.

Lemma change_ratio_self (code : jsstring) :
  changeFactor_of (change_ratio code code) = Fin 1.
Proof.
  destruct code as [|a c]; [reflexivity|].
  unfold change_ratio, len.
  set (n := Z.of_nat (List.length (a :: c))).
  assert (Hn : 0 < n) by (subst n; simpl List.length; lia).
  unfold of_Z, sub, neg, add, abs, div, fin.
  assert (Hs : Qsign (inject_Z n) = Gt).
  { change (Qsign (inject_Z n)) with (n ?= 0). now apply Z.compare_gt_iff. }
  rewrite Hs.
  set (q := Qred (Qred (Qabs (Qred (inject_Z n + Qred (- inject_Z n))))
                  / inject_Z n)).
  assert (Hq : (q == 0)%Q).
  { subst q. rewrite !Qred_correct.
    setoid_replace (inject_Z n + - inject_Z n)%Q with 0%Q by ring.
    reflexivity. }
  unfold changeFactor_of.
  change (dec 5 10) with (Fin (1 # 2)).
  change (dec 3 10) with (Fin (3 # 10)).
  change (dec 1 10) with (Fin (1 # 10)).
  unfold gtb. rewrite !ltb_Fin.
  rewrite (Qltb_comp (1 # 2) (1 # 2) q 0 (Qeq_refl _) Hq).
  rewrite (Qltb_comp (3 # 10) (3 # 10) q 0 (Qeq_refl _) Hq).
  rewrite (Qltb_comp (1 # 10) (1 # 10) q 0 (Qeq_refl _) Hq).
  reflexivity.
Qed.

Lemma complexity_factor_self (code : jsstring) :
  calculateComplexityFactor code code
  = Fin (length_factor_by_thresholds (len code)).
Proof.
  unfold calculateComplexityFactor.
  fold (change_ratio code code).
  rewrite change_ratio_self, length_factor_thresholds.
  assert (Hl := length_factor_cases (len code)). simpl in Hl.
  destruct Hl as [<-|[<-|[<-|[<-|[]]]]]; reflexivity.
Qed.

Lemma bonus_self (code transformerId : jsstring) :
  calculateBonusPoints code code transformerId = 0.
Proof.
  unfold calculateBonusPoints. cbv zeta.
  change (dec 5 10) with (Fin (1 # 2)).
  change (dec 3 10) with (Fin (3 # 10)).
  change (dec 1 10) with (Fin (1 # 10)).
  change (dec 2 10) with (Fin (1 # 5)).
  change (dec 5 100) with (Fin (1 # 20)).
  rewrite !gtb_size_reduction_growth by (discriminate || lia).
  rewrite gtb_irrefl, !Z.ltb_irrefl.
  repeat match goal with
    | |- context [if str_eqb ?a ?b then _ else _] => destruct (str_eqb a b)
    end; lia.
Qed.

Lemma round_add_zero (x : num) : Math_round (add x (of_Z 0)) = Math_round x.
Proof.
  destruct x as [| | |q]; try reflexivity.
  unfold add, of_Z, fin, Math_round. f_equal.
  apply round_comp. rewrite Qred_correct. unfold inject_Z. ring.
Qed.

(** X2.  A transformation that leaves the code as it is earns no bonus,
    whatever the id, and its complexity factor is the length factor alone;
    the score is then the base points of the id times the length factor,
    rounded.  This holds for the empty string too. *)
Theorem identity_transformation_score (code transformerId : jsstring) :
  calculateBonusPoints code code transformerId = 0
  /\ calculateComplexityFactor code code
     = Fin (length_factor_by_thresholds (len code))
  /\ calculateScore code code transformerId
     = Math_round
         (mul (basePoints transformerId)
              (Fin (length_factor_by_thresholds (len code)))).
Proof.
  split; [apply bonus_self|]. split; [apply complexity_factor_self|].
  unfold calculateScore.
  rewrite bonus_self, complexity_factor_self. apply round_add_zero.
Qed.

(** ** The bonus of [minify] when the code grows *)

(** X3.  When the transformed code is not shorter than the original, the
    [minify] bonus is 0; this includes the empty original, whose size
    reduction is [NaN] or minus infinity. *)
Theorem minify_bonus_needs_reduction (originalCode transformedCode : jsstring) :
  len originalCode <= len transformedCode ->
  calculateBonusPoints originalCode transformedCode (lit "minify") = 0.
Proof.
  intros Hle. unfold calculateBonusPoints. decide_switch. cbv zeta.
  change (dec 5 10) with (Fin (1 # 2)).
  change (dec 3 10) with (Fin (3 # 10)).
  change (dec 1 10) with (Fin (1 # 10)).
  now rewrite !gtb_size_reduction_growth by (discriminate || exact Hle).
Qed.

Lemma minify_bonus_needs_reduction_witness :
  len (lit "") <= len (lit "var a = 1;")
  /\ calculateBonusPoints (lit "") (lit "var a = 1;") (lit "minify") = 0.
Proof.
  split; [discriminate|].
  apply (minify_bonus_needs_reduction (lit "") (lit "var a = 1;")).
  discriminate.
Defined.

(** ** Guarded bonuses and the base points *)

Lemma round_le (a b : Q) :
  (a <= b)%Q -> Qround_half_up a <= Qround_half_up b.
Proof.
  intros H. unfold Qround_half_up. apply Qfloor_resp_le. lra.
Qed.

Lemma round_nonneg (a : Q) : (0 <= a)%Q -> 0 <= Qround_half_up a.
Proof.
  intros H. change 0 with (Qround_half_up 0). now apply round_le.
Qed.

(** *** Rounding to binary64 keeps a number that is not negative so *)

Lemma round_half_even_nonneg (N D : Z) :
  0 <= N -> 0 < D -> 0 <= round_half_even N D.
Proof.
  intros HN HD. unfold round_half_even.
  assert (H : 0 <= N / D) by (apply Z.div_pos; lia).
  destruct (2 * (N mod D) ?= D); [destruct (Z.even (N / D))|..]; lia.
Qed.

Lemma pow2_nonneg (k : Z) : (0 <= pow2 k)%Q.
Proof.
  unfold pow2. destruct (0 <=? k).
  - change 0%Q with (inject_Z 0). rewrite <- Zle_Qle.
    apply Z.pow_nonneg; lia.
  - unfold Qle; simpl; lia.
Qed.

Lemma rn_pos_not_negative (n d : positive) : not_negative (rn_pos n d).
Proof.
  unfold rn_pos. cbv zeta.
  set (ex := Z.max (floor_log2 n d - 52) (-1074)).
  set (m := if 0 <=? ex then _ else _).
  assert (Hm : 0 <= m).
  { unfold m. destruct (Z.leb_spec 0 ex) as [Hex|Hex];
      apply round_half_even_nonneg; try lia;
      try (apply Z.mul_pos_pos; [lia|apply Z.pow_pos_nonneg; lia]);
      try (apply Z.mul_nonneg_nonneg; [lia|apply Z.pow_nonneg; lia]). }
  destruct (Qle_bool _ _); [exact I|].
  unfold fin, not_negative. rewrite Qred_correct.
  apply Qmult_le_0_compat; [|apply pow2_nonneg].
  change 0%Q with (inject_Z 0). now rewrite <- Zle_Qle.
Qed.

Lemma rn_not_negative (q : Q) : (0 <= q)%Q -> not_negative (rn q).
Proof.
  destruct q as [[|n|n] d]; unfold rn; cbn [Qnum Qden]; intros H.
  - simpl. lra.
  - apply rn_pos_not_negative.
  - unfold Qle in H; simpl in H; lia.
Qed.

Lemma b64_not_negative (x : num) : not_negative x -> not_negative (b64 x).
Proof.
  destruct x; simpl; trivial. apply rn_not_negative.
Qed.

Lemma sub_not_negative (x y : num) :
  gtb x y = true -> not_negative (sub x y).
Proof.
  unfold gtb. destruct x as [| | |a], y as [| | |b];
    try (simpl; try discriminate; trivial; fail).
  unfold ltb, sub, neg, add, fin, not_negative.
  destruct (b ?= a)%Q eqn:E; try discriminate. intros _.
  assert (H : (b < a)%Q) by (apply Qlt_alt; exact E).
  rewrite !Qred_correct. lra.
Qed.

Lemma mul_not_negative (x : num) (k : positive) :
  not_negative x -> not_negative (mul x (of_Z (Z.pos k))).
Proof.
  destruct x as [| | |a]; try (simpl; trivial; fail).
  unfold mul, of_Z, fin, not_negative.
  intros H. rewrite Qred_correct.
  apply Qmult_le_0_compat; [exact H|discriminate].
Qed.

Lemma rounded_nonneg (x : num) : not_negative x -> 0 <= rounded x.
Proof.
  destruct x; simpl; try lia. apply round_nonneg.
Qed.

(** The rounded product of the two bonuses: a positive multiple of an
    increase, computed in binary64. *)
Lemma rounded_improvement_nonneg (x y : num) (k : positive) :
  gtb x y = true -> 0 <= rounded (fmul (fsub x y) (of_Z (Z.pos k))).
Proof.
  intros H. apply rounded_nonneg. unfold fmul, fsub.
  apply b64_not_negative, mul_not_negative, b64_not_negative.
  now apply sub_not_negative.
Qed.

Lemma guarded_bonus_nonneg
    (originalCode transformedCode transformerId : jsstring) :
  guarded_id transformerId ->
  0 <= calculateBonusPoints originalCode transformedCode transformerId.
Proof.
  intros H. unfold guarded_id in H. cbn [In] in H.
  destruct H as [<-|[<-|[<-|[<-|[]]]]];
    unfold calculateBonusPoints; decide_switch; cbv zeta.
  - destruct (Z.ltb_spec (countIndentationIssues transformedCode)
                         (countIndentationIssues originalCode)); lia.
  - repeat match goal with
      | |- context [if ?b then _ else _] => destruct b
      end; lia.
  - destruct (gtb (b64 (Fin (average_length
                                (declared_names transformedCode))))
                  (b64 (Fin (average_length (declared_names originalCode)))))
      eqn:E.
    + assert (Hr := rounded_improvement_nonneg _ _ 10%positive E).
      change (Z.pos 10) with 10 in Hr.
      destruct (Z.ltb_spec
                  (single_letter_count (declared_names transformedCode))
                  (single_letter_count (declared_names originalCode))); lia.
    + destruct (Z.ltb_spec
                  (single_letter_count (declared_names transformedCode))
                  (single_letter_count (declared_names originalCode))); lia.
  - destruct (Z.ltb_spec (calculateMaxNestingLevel transformedCode)
                         (calculateMaxNestingLevel originalCode)); lia.
Qed.

Lemma guarded_not_inherited (transformerId : jsstring) :
  guarded_id transformerId -> ~ inherited transformerId.
Proof.
  intros H Hi. unfold guarded_id in H. simpl in H.
  unfold inherited in Hi. simpl in Hi.
  destruct H as [<-|[<-|[<-|[<-|[]]]]];
    repeat (destruct Hi as [Hi|Hi]; [discriminate|]); contradiction.
Qed.

(** X4.  For [format], [minify], [rename-variables] and
    [flatten-control-flow] the bonus is never negative and the score is an
    integer that is at least the base points of the id: such a
    transformation never costs points, whatever it does to the code. *)
Theorem guarded_score_at_least_base
    (originalCode transformedCode transformerId : jsstring) :
  guarded_id transformerId ->
  0 <= calculateBonusPoints originalCode transformedCode transformerId
  /\ exists z : Z,
       calculateScore originalCode transformedCode transformerId = of_Z z
       /\ table_points transformerId <= z.
Proof.
  intros Hg.
  assert (Hb := guarded_bonus_nonneg originalCode transformedCode _ Hg).
  split; [exact Hb|].
  destruct (complexity_factor_finite originalCode transformedCode)
    as (q & Hq & Hq1 & _).
  eexists. split.
  - exact (score_formula _ _ _ q (guarded_not_inherited _ Hg) Hq).
  - rewrite <- (round_inject_Z (table_points transformerId)) at 1.
    apply round_le.
    assert (Ht := table_points_range transformerId).
    assert (Ht' : (0 <= inject_Z (table_points transformerId))%Q)
      by (change 0%Q with (inject_Z 0); rewrite <- Zle_Qle; lia).
    assert (Hb' : (0 <= inject_Z (calculateBonusPoints originalCode
                                    transformedCode transformerId))%Q)
      by (change 0%Q with (inject_Z 0); now rewrite <- Zle_Qle).
    assert (Hm : (1 * inject_Z (table_points transformerId)
                  <= q * inject_Z (table_points transformerId))%Q)
      by (apply Qmult_le_compat_r; trivial).
    lra.
Qed.

Lemma guarded_score_at_least_base_witness :
  guarded_id (lit "format")
  /\ 0 <= calculateBonusPoints (lit "  a") (lit "a") (lit "format")
  /\ exists z : Z,
       calculateScore (lit "  a") (lit "a") (lit "format") = of_Z z
       /\ table_points (lit "format") <= z.
Proof.
  assert (H : guarded_id (lit "format")) by (left; reflexivity).
  split; [exact H|].
  exact (guarded_score_at_least_base (lit "  a") (lit "a") (lit "format") H).
Defined.

(** ** The ranges of the challenge score *)

Lemma assessFormatting_range (originalCode transformedCode : jsstring) :
  0 <= assessFormatting originalCode transformedCode <= 35.
Proof.
  unfold assessFormatting. cbv zeta.
  destruct (Qgtb _ _);
    destruct (Z.ltb_spec (countIndentationIssues transformedCode)
                         (countIndentationIssues originalCode));
    destruct (Z.ltb_spec (long_lines transformedCode)
                         (long_lines originalCode)); lia.
Qed.

Lemma token_component_values (originalCode transformedCode : jsstring) :
  In (token_component originalCode transformedCode) [15; 10; -5; 0].
Proof.
  unfold token_component. cbv zeta.
  destruct (ltb _ _); [simpl; tauto|].
  destruct (leb _ _); [simpl; tauto|].
  destruct (gtb _ _); simpl; tauto.
Qed.

Lemma name_component_range (originalCode transformedCode : jsstring) :
  0 <= name_component originalCode transformedCode <= 25.
Proof.
  unfold name_component. cbv zeta.
  destruct (gtb (b64 (Fin (avgLength (analyzeVariableNames transformedCode))))
                (b64 (Fin (avgLength (analyzeVariableNames originalCode)))))
    eqn:E; [|lia].
  assert (Hr := rounded_improvement_nonneg _ _ 8%positive E).
  change (Z.pos 8) with 8 in Hr. lia.
Qed.

Lemma eval_component_values (originalCode transformedCode : jsstring) :
  In (eval_component originalCode transformedCode) [20; 10; -10; 0].
Proof.
  unfold eval_component. cbv zeta.
  destruct (_ && _)%bool; [simpl; tauto|].
  destruct (_ >? _); [simpl; tauto|].
  destruct (_ >? _); simpl; tauto.
Qed.

(** X5.  The four components of a challenge score stay in fixed ranges:
    [tokenCount] is 15, 10, 0 or -5, [variableNameImprovement] lies between
    0 and 25, [evalRemoval] is 20, 10, 0 or -10 and [formatting] lies
    between 0 and 35.  So the score is never below 35: the lower clamp at 0
    is never reached. *)
Theorem challenge_score_at_least_35 (originalCode transformedCode : jsstring) :
  let r := getChallengeScore originalCode transformedCode in
  let b := breakdown r in
  In (tokenCount b) [15; 10; -5; 0]
  /\ 0 <= variableNameImprovement b <= 25
  /\ In (evalRemoval b) [20; 10; -10; 0]
  /\ 0 <= formatting b <= 35
  /\ 35 <= challenge_score r <= 100
  /\ challenge_score r
     = Z.min 100 (50 + (tokenCount b + variableNameImprovement b
                        + evalRemoval b + formatting b)).
Proof.
  unfold getChallengeScore; cbn [breakdown challenge_score tokenCount
    variableNameImprovement evalRemoval formatting].
  assert (Ht := token_component_values originalCode transformedCode).
  assert (Hn := name_component_range originalCode transformedCode).
  assert (He := eval_component_values originalCode transformedCode).
  assert (Hf := assessFormatting_range originalCode transformedCode).
  repeat split; trivial; try lia; rewrite round_inject_Z;
    simpl in Ht, He;
    destruct Ht as [Ht|[Ht|[Ht|[Ht|[]]]]];
    destruct He as [He|[He|[He|[He|[]]]]]; lia.
Qed.

Lemma assessFormatting_self (code : jsstring) : assessFormatting code code = 0.
Proof.
  unfold assessFormatting. cbv zeta.
  rewrite !Z.ltb_irrefl.
  assert (H : Qgtb (inject_Z (Z.of_nat (List.length (split_lines code))))
                   (inject_Z (Z.of_nat (List.length (split_lines code)))
                    * (12 # 10)) = false).
  { apply Qltb_ge.
    assert (H0 : (0 <= inject_Z (Z.of_nat
                                   (List.length (split_lines code))))%Q)
      by (change 0%Q with (inject_Z 0); rewrite <- Zle_Qle; lia).
    lra. }
  now rewrite H.
Qed.

Lemma leb_Fin (a b : Q) : leb (Fin a) (Fin b) = Qle_bool a b.
Proof.
  unfold leb, Qle_bool, Qcompare, Z.leb.
  now destruct (Qnum a * QDen b ?= Qnum b * QDen a)%Z.
Qed.

Lemma token_component_self (code : jsstring) :
  token_component code code = if countTokens code =? 0 then 0 else 10.
Proof.
  unfold token_component. cbv zeta.
  assert (Hn : 0 <= countTokens code) by (unfold countTokens; lia).
  set (n := countTokens code) in *.
  destruct (Z.eqb_spec n 0) as [->|Hne]; [reflexivity|].
  unfold of_Z, div, fin.
  assert (Hs : Qsign (inject_Z n) = Gt).
  { change (Qsign (inject_Z n)) with (n ?= 0).
    apply Z.compare_gt_iff. lia. }
  rewrite Hs.
  assert (Hq : (Qred (inject_Z n / inject_Z n) == 1)%Q).
  { rewrite Qred_correct. apply Qmult_inv_r.
    intros H. unfold Qeq in H; simpl in H. lia. }
  change (dec 8 10) with (Fin (4 # 5)).
  change (dec 12 10) with (Fin (6 # 5)).
  rewrite ltb_Fin, leb_Fin.
  rewrite (Qltb_comp _ 1 (4 # 5) (4 # 5) Hq (Qeq_refl _)).
  rewrite Hq. reflexivity.
Qed.

Lemma eval_component_self (code : jsstring) :
  eval_component code code
  = if count_matches evalPattern code >? 0 then -10 else 0.
Proof.
  unfold eval_component. cbv zeta.
  set (n := count_matches evalPattern code).
  destruct (Z.gtb_spec n 0); destruct (Z.eqb_spec n 0);
    destruct (Z.gtb_spec n n); simpl; trivial; lia.
Qed.

Lemma name_component_self (code : jsstring) : name_component code code = 0.
Proof.
  unfold name_component. cbv zeta. now rewrite gtb_irrefl.
Qed.

(** X6.  Challenge mode on unchanged code: the score is 50, plus 10 when
    the code has at least one token, minus 10 when it has at least one
    [eval] call; the two other components are 0. *)
Theorem challenge_score_unchanged_code (code : jsstring) :
  let tc := if countTokens code =? 0 then 0 else 10 in
  let ev := if count_matches evalPattern code >? 0 then -10 else 0 in
  getChallengeScore code code
  = Challenge (50 + tc + ev) (Breakdown tc 0 ev 0 (50 + tc + ev)).
Proof.
  intros tc ev. unfold getChallengeScore.
  rewrite token_component_self, name_component_self, eval_component_self.
  rewrite assessFormatting_self.
  fold tc ev. cbv zeta. rewrite round_inject_Z.
  assert (E : Z.max 0 (Z.min 100 (50 + (tc + 0 + ev + 0))) = 50 + tc + ev).
  { subst tc ev.
    destruct (countTokens code =? 0);
      destruct (count_matches evalPattern code >? 0); reflexivity. }
  now rewrite E.
Qed.

(** ** Tokens *)

Lemma plus_fail (p : char -> bool) (pv : option char) (c : char)
    (s : jsstring) (i : nat) :
  p c = false -> match_here (Plus p) pv (c :: s) i = None.
Proof.
  intros H. unfold match_here; simpl. unfold step; simpl. now rewrite H.
Qed.

Lemma plus_fail_nil (p : char -> bool) (pv : option char) (i : nat) :
  match_here (Plus p) pv [] i = None.
Proof. reflexivity. Qed.

Lemma star_longest (p : char -> bool) (s : jsstring) :
  forall (pv : option char) (i : nat),
    exists pv',
      star p Some pv s i []
      = Some (MState pv' (skipn (run_length p s) s) (i + run_length p s) []).
Proof.
  induction s as [|a s IH]; intros pv i; simpl.
  - exists pv. now rewrite Nat.add_0_r.
  - destruct (p a) eqn:Ea.
    + destruct (IH (Some a) (S i)) as (pv' & ->).
      exists pv'. simpl. now rewrite Nat.add_succ_r.
    + exists pv. simpl. now rewrite Nat.add_0_r.
Qed.

(** A greedy [p+] takes the whole run of units that satisfy [p]. *)
Lemma plus_match (p : char -> bool) (pv : option char) (a : char)
    (s : jsstring) (i : nat) :
  p a = true ->
  exists res,
    match_here (Plus p) pv (a :: s) i = Some (S (run_length p s), res).
Proof.
  intros Ha. unfold match_here; simpl. unfold step; simpl. rewrite Ha.
  unfold star_st; simpl.
  destruct (star_longest p s (Some a) (S i)) as (pv' & ->).
  cbv zeta. cbn [st_pos st_caps].
  replace (S i + run_length p s - i)%nat with (S (run_length p s)) by lia.
  eexists. reflexivity.
Qed.

Lemma count_runs_skip (n : nat) (s : jsstring) :
  (n <= run_length is_separator s)%nat ->
  count_runs false (skipn n s) = count_runs false s.
Proof.
  revert s. induction n as [|n IH]; intros s H; [reflexivity|].
  destruct s as [|a s]; [reflexivity|].
  simpl in H |- *. destruct (is_separator a); [|lia].
  apply IH. lia.
Qed.

Lemma nonempty_count_cons (x : jsstring) (l : list jsstring) :
  nonempty_count (x :: l)
  = (match x with [] => 0 | _ :: _ => 1 end) + nonempty_count l.
Proof.
  unfold nonempty_count. cbn [filter].
  destruct x as [|c x]; [reflexivity|].
  assert (H : (len (c :: x) >? 0) = true)
    by (apply Z.gtb_lt; unfold len; simpl List.length; lia).
  rewrite H. simpl List.length. lia.
Qed.

Lemma rev_piece (cur : jsstring) :
  match rev cur with [] => 0 | _ :: _ => 1 end
  = match cur with [] => 0 | _ :: _ => 1 end.
Proof.
  destruct cur as [|c cur]; [reflexivity|].
  destruct (rev (c :: cur)) eqn:E; [|reflexivity].
  apply (f_equal (@List.length char)) in E.
  rewrite length_rev in E. discriminate.
Qed.

Lemma split_from_tokens (s : jsstring) :
  (forall (pv : option char) (i : nat) (cur : jsstring),
      nonempty_count (split_from tokenSeparatorPattern pv s i 0 cur)
      = (match cur with [] => 0 | _ :: _ => 1 end)
        + count_runs (match cur with [] => false | _ :: _ => true end) s)
  /\ (forall (pv : option char) (i n : nat),
         (n <= run_length is_separator s)%nat ->
         nonempty_count (split_from tokenSeparatorPattern pv s i n [])
         = count_runs false s).
Proof.
  induction s as [|a s [IH1 IH2]].
  - split.
    + intros pv i cur. cbn [split_from count_runs].
      rewrite nonempty_count_cons, rev_piece. reflexivity.
    + intros pv i n _. destruct n; reflexivity.
  - assert (P1 : forall (pv : option char) (i : nat) (cur : jsstring),
               nonempty_count
                 (split_from tokenSeparatorPattern pv (a :: s) i 0 cur)
               = (match cur with [] => 0 | _ :: _ => 1 end)
                 + count_runs
                     (match cur with [] => false | _ :: _ => true end)
                     (a :: s)).
    { intros pv i cur. cbn [split_from count_runs].
      destruct (is_separator a) eqn:Ea.
      - destruct (plus_match is_separator pv a s i Ea) as (res & E).
        change (Plus is_separator) with tokenSeparatorPattern in E.
        rewrite E.
        rewrite nonempty_count_cons, rev_piece.
        now rewrite (IH2 (Some a) (S i) _ (Nat.le_refl _)).
      - assert (E := plus_fail is_separator pv a s i Ea).
        change (Plus is_separator) with tokenSeparatorPattern in E.
        rewrite E.
        rewrite (IH1 (Some a) (S i) (a :: cur)).
        destruct cur; lia. }
    split; [exact P1|].
    intros pv i n Hn. destruct n as [|n].
    + now rewrite P1.
    + cbn [split_from count_runs].
      simpl in Hn. destruct (is_separator a); [|lia].
      apply IH2. lia.
Qed.

Lemma countTokens_runs (code : jsstring) :
  countTokens code = count_runs false code.
Proof.
  change (countTokens code)
    with (nonempty_count (Regex.split tokenSeparatorPattern code)).
  unfold Regex.split.
  destruct code as [|a s]; [reflexivity|].
  exact (proj1 (split_from_tokens (a :: s)) None 0%nat []).
Qed.

(** X7.  [countTokens] counts the maximal runs of units that are neither
    white space nor one of the punctuation marks of the separator class:
    splitting on the separator pattern and dropping the empty pieces gives
    the same number as a single scan of the string. *)
Theorem countTokens_counts_runs (code : jsstring) :
  countTokens code = count_runs false code.
Proof.
  apply countTokens_runs.
Qed.

Lemma count_runs_app (a b : jsstring) (c : char) :
  is_separator c = true ->
  forall f : bool,
    count_runs f (a ++ c :: b) = count_runs f a + count_runs false b.
Proof.
  intros Hc. induction a as [|x a IH]; intros f; simpl.
  - now rewrite Hc.
  - destruct (is_separator x); rewrite IH; lia.
Qed.

(** X8.  The tokens of two pieces of code joined by a separator - white
    space or a punctuation mark - add up. *)
Theorem countTokens_joined (left right : jsstring) (separator : char) :
  is_separator separator = true ->
  countTokens (left ++ separator :: right)
  = countTokens left + countTokens right.
Proof.
  intros H. rewrite !countTokens_runs. now apply count_runs_app.
Qed.

Lemma countTokens_joined_witness :
  is_separator (N_of_ascii ";") = true
  /\ countTokens (lit "let a = 1" ++ N_of_ascii ";" :: lit "b()")
     = countTokens (lit "let a = 1") + countTokens (lit "b()").
Proof.
  split; [reflexivity|].
  apply (countTokens_joined (lit "let a = 1") (lit "b()")). reflexivity.
Defined.

(** ** Lines *)

Lemma chr_match_here (c : char) (pv : option char) (a : char)
    (s : jsstring) (i : nat) :
  match_here (Chr c) pv (a :: s) i
  = if char_eqb c a then Some (1%nat, MResult [a] []) else None.
Proof.
  unfold match_here; simpl. unfold step; simpl.
  destruct (char_eqb c a); [|reflexivity].
  cbv zeta. cbn [st_pos st_caps].
  replace (S i - i)%nat with 1%nat by lia. reflexivity.
Qed.

Lemma char_eqb_sym (a b : char) : char_eqb a b = char_eqb b a.
Proof. apply N.eqb_sym. Qed.

Lemma newline_matches (s : jsstring) :
  forall (pv : option char) (i : nat),
    Z.of_nat (List.length (match_all_from newlinePattern pv s i 0))
    = count_newlines s.
Proof.
  induction s as [|a s IH]; intros pv i; [reflexivity|].
  cbn [match_all_from count_newlines].
  unfold newlinePattern at 1. rewrite chr_match_here.
  fold newlinePattern. rewrite (char_eqb_sym a NL).
  destruct (char_eqb NL a).
  - cbn [pred List.length]. rewrite Nat2Z.inj_succ, IH. lia.
  - rewrite IH. lia.
Qed.

Lemma split_lines_count (s : jsstring) :
  forall cur : jsstring,
    Z.of_nat (List.length (split_lines_aux cur s)) = count_newlines s + 1.
Proof.
  induction s as [|a s IH]; intros cur; [reflexivity|].
  cbn [split_lines_aux count_newlines].
  destruct (char_eqb a NL).
  - cbn [List.length]. rewrite Nat2Z.inj_succ, IH. lia.
  - rewrite IH. lia.
Qed.

(** X9.  The module counts lines in two ways - the length of
    [split('\n')] in [assessFormatting] and the number of matches of the
    line-feed pattern plus one in [calculateReadabilityScore] - and the two
    agree on every string; the count is one more than the number of line
    feeds, so it is at least 1, also for the empty string. *)
Theorem line_counts_agree (s : jsstring) :
  Z.of_nat (List.length (split_lines s)) = body_line_count s
  /\ body_line_count s = count_newlines s + 1
  /\ 1 <= body_line_count s.
Proof.
  assert (E : body_line_count s = count_newlines s + 1).
  { unfold body_line_count, count_matches, match_all.
    now rewrite newline_matches. }
  split; [|split; [exact E|]].
  - rewrite E. apply split_lines_count.
  - rewrite E. unfold body_line_count.
    assert (0 <= count_newlines s); [|lia].
    clear E. induction s as [|a s IH]; simpl; [lia|].
    destruct (char_eqb a NL); lia.
Qed.

(** ** Indentation issues and nesting levels *)

Lemma indentation_step_bounds (issues expectedIndent : Z) (line : jsstring) :
  0 <= expectedIndent ->
  issues <= fst (indentation_step (issues, expectedIndent) line) <= issues + 1
  /\ 0 <= snd (indentation_step (issues, expectedIndent) line).
Proof.
  intros He. unfold indentation_step.
  destruct (trim line) as [|c tr]; [simpl; lia|].
  cbv zeta. cbn [fst snd].
  repeat match goal with
    | |- context [if ?b then _ else _] => destruct b
    end; lia.
Qed.

Lemma indentation_fold (lines : list jsstring) :
  forall issues expectedIndent : Z,
    0 <= expectedIndent ->
    issues
    <= fst (fold_left indentation_step lines (issues, expectedIndent))
    <= issues + Z.of_nat (List.length lines).
Proof.
  induction lines as [|line lines IH]; intros issues e He.
  - simpl. lia.
  - cbn [fold_left List.length]. rewrite Nat2Z.inj_succ.
    destruct (indentation_step_bounds issues e line He) as [Hi He'].
    destruct (indentation_step (issues, e) line) as [issues' e'].
    cbn [fst snd] in Hi, He'.
    specialize (IH issues' e' He'). lia.
Qed.

(** X10.  The number of indentation issues lies between 0 and the number
    of lines of the code; so the [format] bonus, 2 points for each issue
    removed, lies between 0 and twice the number of lines of the
    original. *)
Theorem indentation_issues_bounds (originalCode transformedCode : jsstring) :
  0 <= countIndentationIssues originalCode
    <= Z.of_nat (List.length (split_lines originalCode))
  /\ 0 <= calculateBonusPoints originalCode transformedCode (lit "format")
       <= 2 * Z.of_nat (List.length (split_lines originalCode)).
Proof.
  assert (Ho := indentation_fold (split_lines originalCode) 0 0 (Z.le_refl 0)).
  assert (Ht := indentation_fold (split_lines transformedCode) 0 0
                  (Z.le_refl 0)).
  fold (countIndentationIssues originalCode) in Ho.
  fold (countIndentationIssues transformedCode) in Ht.
  split; [lia|].
  unfold calculateBonusPoints. decide_switch. cbv zeta.
  destruct (Z.ltb_spec (countIndentationIssues transformedCode)
                       (countIndentationIssues originalCode)); lia.
Qed.

Lemma nesting_fold (lines : list jsstring) :
  forall currentLevel maxLevel : Z,
    maxLevel <= snd (fold_left nesting_step lines (currentLevel, maxLevel)).
Proof.
  induction lines as [|line lines IH]; intros cl ml; simpl; [lia|].
  etransitivity; [|apply IH]. lia.
Qed.

(** X11.  The maximum nesting level is never negative, even when the code
    closes more braces than it opens; so the [flatten-control-flow] bonus,
    10 points for each level removed, lies between 0 and ten times the
    nesting level of the original. *)
Theorem nesting_level_bounds (originalCode transformedCode : jsstring) :
  0 <= calculateMaxNestingLevel originalCode
  /\ 0 <= calculateBonusPoints originalCode transformedCode
                               (lit "flatten-control-flow")
       <= 10 * calculateMaxNestingLevel originalCode.
Proof.
  assert (Ho : 0 <= calculateMaxNestingLevel originalCode)
    by apply nesting_fold.
  assert (Ht : 0 <= calculateMaxNestingLevel transformedCode)
    by apply nesting_fold.
  split; [exact Ho|].
  unfold calculateBonusPoints. decide_switch. cbv zeta.
  destruct (Z.ltb_spec (calculateMaxNestingLevel transformedCode)
                       (calculateMaxNestingLevel originalCode)); lia.
Qed.

(** ** The statistics of the variable names *)

Lemma declared_name_nonempty (code : jsstring) :
  Forall (fun name => name <> [])
         (map (fun m => capture 2 (m_caps m))
              (match_all varDeclarationPattern code)).
Proof.
  apply Forall_map.
  assert (Hs := match_all_from_sound varDeclarationPattern code None 0 0).
  eapply Forall_impl; [|exact Hs].
  intros res H.
  destruct (declaration_shape _ _ H)
    as (kw & sp & name & _ & _ & _ & _ & Hn & _ & ->).
  exact Hn.
Qed.

Lemma total_length_from (names : list jsstring) :
  forall start : Z,
    fold_left (fun sum name => sum + len name) names start
    = start + total_length names.
Proof.
  unfold total_length.
  induction names as [|n names IH]; intros start; simpl; [lia|].
  rewrite (IH (start + len n)), (IH (len n)). lia.
Qed.

Lemma total_length_nonempty (names : list jsstring) :
  Forall (fun name => name <> []) names ->
  Z.of_nat (List.length names) <= total_length names.
Proof.
  induction 1 as [|n names Hn _ IH]; [reflexivity|].
  unfold total_length. cbn [fold_left List.length].
  rewrite total_length_from, Nat2Z.inj_succ.
  assert (1 <= len n).
  { destruct n; [contradiction|]. unfold len. simpl List.length. lia. }
  lia.
Qed.

Lemma disjoint_filters (A : Type) (p q : A -> bool) (l : list A) :
  (forall x, p x = true -> q x = false) ->
  (List.length (filter p l) + List.length (filter q l) <= List.length l)%nat.
Proof.
  intros H. induction l as [|x l IH]; simpl; [lia|].
  destruct (p x) eqn:Ep.
  - rewrite (H x Ep). simpl. lia.
  - destruct (q x); simpl; lia.
Qed.

(** X12.  The statistics of [analyzeVariableNames]: a name of at most two
    units is never counted as descriptive, so the short and the
    descriptive names together are at most the declarations; the average
    length is 0 when the code declares no variable - there is no division
    by zero - and at least 1 as soon as it declares one. *)
Theorem variable_name_statistics (code : jsstring) :
  let stats := analyzeVariableNames code in
  0 <= shortNames stats
  /\ 0 <= descriptiveNames stats
  /\ shortNames stats + descriptiveNames stats <= count stats
  /\ ((count stats = 0 /\ avgLength stats = 0%Q)
      \/ (0 < count stats /\ (1 <= avgLength stats)%Q)).
Proof.
  unfold analyzeVariableNames. cbv zeta.
  cbn [shortNames descriptiveNames count avgLength].
  assert (Hall := declared_name_nonempty code).
  remember (map (fun m => capture 2 (m_caps m))
                (match_all varDeclarationPattern code)) as names eqn:En.
  clear En.
  split; [lia|]. split; [lia|]. split.
  - rewrite <- Nat2Z.inj_add. apply Nat2Z.inj_le.
    apply disjoint_filters. intros x Hx.
    apply andb_false_iff. left.
    apply Z.leb_le in Hx.
    destruct (Z.gtb_spec (len x) 3); trivial; lia.
  - destruct names as [|n ns].
    + left. split; reflexivity.
    + right.
      assert (Hlen := total_length_nonempty _ Hall).
      set (k := Z.of_nat (List.length (n :: ns))) in *.
      assert (Hk : 0 < k) by (subst k; simpl List.length; lia).
      split; [exact Hk|].
      assert (Hg : (k >? 0) = true) by (apply Z.gtb_lt; exact Hk).
      rewrite Hg.
      apply Qle_shift_div_l.
      * change 0%Q with (inject_Z 0). now rewrite <- Zlt_Qlt.
      * rewrite Qmult_1_l. now rewrite <- Zle_Qle.
Qed.

(** ** Sorting twice *)

(** X13.  Sorting a leaderboard twice is sorting it once, and the
    leaderboard has as many entries as the input: no entry is dropped or
    duplicated (for scores that are numbers). *)
Theorem getLeaderboard_idempotent (T : Type) (entries : list (entry T)) :
  Forall is_number entries ->
  getLeaderboard (getLeaderboard entries) = getLeaderboard entries
  /\ List.length (getLeaderboard entries) = List.length entries.
Proof.
  intros Hn. unfold getLeaderboard. split.
  - apply Array_sort_of_sorted.
    + now apply (Permutation_Forall (Array_sort_perm T entries)).
    + now apply Array_sort_sorted.
  - symmetry. apply Permutation_length. apply Array_sort_perm.
Qed.

Lemma getLeaderboard_idempotent_witness :
  Forall is_number example_board
  /\ getLeaderboard (getLeaderboard example_board)
     = getLeaderboard example_board
  /\ List.length (getLeaderboard example_board) = List.length example_board.
Proof.
  assert (H : Forall is_number example_board)
    by (repeat constructor; discriminate).
  split; [exact H|].
  exact (getLeaderboard_idempotent nat example_board H).
Defined.

(** ** Signed bonuses in several steps *)

(** X14.  For [es6-to-es5] and [jsx-to-js] the bonus is a signed
    difference of counts: the bonus of two successive transformations is
    the sum of the two bonuses, and undoing a transformation gives the
    opposite bonus. *)
Theorem signed_bonus_telescopes (first second third transformerId : jsstring) :
  signed_id transformerId ->
  calculateBonusPoints first third transformerId
  = calculateBonusPoints first second transformerId
    + calculateBonusPoints second third transformerId
  /\ calculateBonusPoints second first transformerId
     = - calculateBonusPoints first second transformerId.
Proof.
  intros H. unfold signed_id in H. cbn [In] in H.
  destruct H as [<-|[<-|[]]];
    unfold calculateBonusPoints; decide_switch; cbv zeta; lia.
Qed.

Lemma signed_bonus_telescopes_witness :
  signed_id (lit "jsx-to-js")
  /\ calculateBonusPoints (lit "<a><b>") (lit "x") (lit "jsx-to-js")
     = calculateBonusPoints (lit "<a><b>") (lit "<a>") (lit "jsx-to-js")
       + calculateBonusPoints (lit "<a>") (lit "x") (lit "jsx-to-js")
  /\ calculateBonusPoints (lit "<a>") (lit "<a><b>") (lit "jsx-to-js")
     = - calculateBonusPoints (lit "<a><b>") (lit "<a>") (lit "jsx-to-js").
Proof.
  assert (H : signed_id (lit "jsx-to-js")) by (right; left; reflexivity).
  split; [exact H|].
  exact (signed_bonus_telescopes (lit "<a><b>") (lit "<a>") (lit "x")
           (lit "jsx-to-js") H).
Defined.

(** * Properties of the score board *)

Lemma readability_range (code : value) :
  0 <= calculateReadabilityScore code <= 100.
Proof.
  unfold calculateReadabilityScore.
  destruct (negb (to_boolean code) || negb (is_string code))%bool; [lia|].
  destruct code; lia.
Qed.

Lemma normalized_integer (z : Z) :
  0 <= z <= 100 ->
  ScoreBoard.normalizedReadabilityScore (of_Z z) = of_Z z.
Proof.
  intros H. unfold ScoreBoard.normalizedReadabilityScore.
  change (ScoreBoard.Math_min (of_Z 100) (of_Z z))
    with (if ltb (of_Z z) (of_Z 100) then of_Z z else of_Z 100).
  rewrite ltb_of_Z.
  assert (E : (if z <? 100 then of_Z z else of_Z 100) = of_Z z).
  { destruct (Z.ltb_spec z 100); trivial.
    replace z with 100 by lia. reflexivity. }
  rewrite E.
  change (ScoreBoard.Math_max (of_Z 0) (of_Z z))
    with (if ltb (of_Z 0) (of_Z z) then of_Z z else of_Z 0).
  rewrite ltb_of_Z.
  destruct (Z.ltb_spec 0 z); trivial.
  replace z with 0 by lia. reflexivity.
Qed.

(** X15.  The clamp of the score board brings every number into the range
    0-100, the infinities included; [NaN] alone passes through it
    unchanged.  On a score returned by [calculateReadabilityScore] the
    clamp changes nothing. *)
Theorem normalized_score_range (readabilityScore : num) (code : value) :
  match readabilityScore with
  | NaN => ScoreBoard.normalizedReadabilityScore readabilityScore = NaN
  | _ =>
      leb (of_Z 0) (ScoreBoard.normalizedReadabilityScore readabilityScore)
      = true
      /\ leb (ScoreBoard.normalizedReadabilityScore readabilityScore)
             (of_Z 100) = true
  end
  /\ ScoreBoard.normalizedReadabilityScore
       (of_Z (calculateReadabilityScore code))
     = of_Z (calculateReadabilityScore code).
Proof.
  split; [|apply normalized_integer, readability_range].
  destruct readabilityScore as [| | |q];
    [reflexivity|split; reflexivity|split; reflexivity|].
  unfold ScoreBoard.normalizedReadabilityScore.
  change (ScoreBoard.Math_min (of_Z 100) (Fin q))
    with (if ltb (Fin q) (Fin (inject_Z 100)) then Fin q else of_Z 100).
  rewrite ltb_Fin.
  destruct (Qltb q (inject_Z 100)) eqn:E1; [|split; reflexivity].
  change (ScoreBoard.Math_max (of_Z 0) (Fin q))
    with (if ltb (Fin (inject_Z 0)) (Fin q) then Fin q else of_Z 0).
  rewrite ltb_Fin.
  destruct (Qltb (inject_Z 0) q) eqn:E2; [|split; reflexivity].
  unfold of_Z. rewrite !leb_Fin. split; apply Qle_bool_iff.
  - apply Qltb_lt in E2. now apply Qlt_le_weak.
  - apply Qltb_lt in E1. now apply Qlt_le_weak.
Qed.

(** X16.  The colour and the label of the readability score are always of
    the same band, for every number and for [NaN] (which falls in the
    lowest band). *)
Theorem color_and_label_agree (score : num) :
  In (ScoreBoard.getReadabilityColor score,
      ScoreBoard.getReadabilityLabel score)
     [ ("text-green-400", "Excellent"); ("text-blue-400", "Good");
       ("text-yellow-400", "Fair"); ("text-orange-400", "Poor");
       ("text-red-400", "Very Poor") ]%string
  /\ (ScoreBoard.getReadabilityLabel score = "Excellent"%string
      <-> leb (of_Z 80) score = true)
  /\ (ScoreBoard.getReadabilityLabel NaN = "Very Poor"%string).
Proof.
  unfold ScoreBoard.getReadabilityColor, ScoreBoard.getReadabilityLabel,
    ScoreBoard.geb.
  split; [|split; [|reflexivity]].
  - destruct (leb (of_Z 80) score); [simpl; tauto|].
    destruct (leb (of_Z 60) score); [simpl; tauto|].
    destruct (leb (of_Z 40) score); [simpl; tauto|].
    destruct (leb (of_Z 20) score); simpl; tauto.
  - destruct (leb (of_Z 80) score); [tauto|].
    destruct (leb (of_Z 60) score); [split; discriminate|].
    destruct (leb (of_Z 40) score); [split; discriminate|].
    destruct (leb (of_Z 20) score); split; discriminate.
Qed.

Lemma ltb_Fin_of_Z (q : Q) (c : Z) :
  ltb (Fin q) (of_Z c) = Qltb q (inject_Z c).
Proof. unfold of_Z. apply ltb_Fin. Qed.

(** The quotient by 100 and the product by 100 are both rounded: a score
    of 7 gives a width just above 7. *)
Lemma progress_width_of_7 :
  ScoreBoard.progressWidth (of_Z 7)
  = Fin (7881299347898369 # 1125899906842624).
Proof.
  vm_compute. reflexivity.
Qed.





Lemma geb_Fin_of_Z (q : Q) (c : Z) :
  ScoreBoard.geb (Fin q) (of_Z c) = negb (Qltb q (inject_Z c)).
Proof.
  unfold ScoreBoard.geb, of_Z. rewrite leb_Fin. unfold Qltb.
  now rewrite negb_involutive.
Qed.

Lemma Qltb_below (q : Q) (a b : Z) :
  Qltb q (inject_Z a) = true -> a <= b -> Qltb q (inject_Z b) = true.
Proof.
  intros H Hab. apply Qltb_lt. apply Qltb_lt in H.
  eapply Qlt_le_trans; [exact H|]. now rewrite <- Zle_Qle.
Qed.

(** X18.  While the progress bar is shown, the threshold displayed after
    "Next" is strictly above the score, and a score that reaches it gets
    another badge than the current one. *)
Theorem next_level_changes_badge (q : Q) :
  (q < 1000)%Q ->
  ltb (Fin q) (of_Z (ScoreBoard.nextLevel (Fin q))) = true
  /\ fst (ScoreBoard.getLevelBadge (of_Z (ScoreBoard.nextLevel (Fin q))))
     <> fst (ScoreBoard.getLevelBadge (Fin q)).
Proof.
  intros Hq.
  assert (H1000 : Qltb q (inject_Z 1000) = true) by now apply Qltb_lt.
  unfold ScoreBoard.nextLevel.
  unfold ScoreBoard.getLevelBadge at 2.
  rewrite !ltb_Fin_of_Z, !geb_Fin_of_Z. rewrite H1000.
  destruct (Qltb q (inject_Z 100)) eqn:E1; cbv iota.
  { rewrite E1.
    rewrite (Qltb_below q 100 500 E1), (Qltb_below q 100 200 E1) by lia.
    split; [reflexivity|]. vm_compute. discriminate. }
  destruct (Qltb q (inject_Z 200)) eqn:E2; cbv iota.
  { rewrite E2.
    rewrite (Qltb_below q 200 500 E2) by lia.
    split; [reflexivity|]. vm_compute. discriminate. }
  destruct (Qltb q (inject_Z 500)) eqn:E3; cbv iota.
  { rewrite E3.
    split; [reflexivity|]. vm_compute. discriminate. }
  rewrite H1000.
  split; [reflexivity|]. vm_compute. discriminate.
Qed.

Lemma next_level_changes_badge_witness :
  (150 < 1000)%Q
  /\ ltb (Fin 150) (of_Z (ScoreBoard.nextLevel (Fin 150))) = true
  /\ fst (ScoreBoard.getLevelBadge (of_Z (ScoreBoard.nextLevel (Fin 150))))
     <> fst (ScoreBoard.getLevelBadge (Fin 150)).
Proof.
  split; [reflexivity|].
  apply (next_level_changes_badge 150). reflexivity.
Defined.

(** ** The displayed name of a transformer *)

Lemma unit_literal_match_here (c : char) (pv : option char) (a : char)
    (s : jsstring) (i : nat) :
  match_here (Seq (Chr c) Eps) pv (a :: s) i
  = if char_eqb c a then Some (1%nat, MResult [a] []) else None.
Proof.
  unfold match_here; simpl. unfold step; simpl.
  destruct (char_eqb c a); [|reflexivity].
  cbv zeta. cbn [st_pos st_caps].
  replace (S i - i)%nat with 1%nat by lia. reflexivity.
Qed.

Lemma hyphen_match_here (pv : option char) (a : char) (s : jsstring)
    (i : nat) :
  match_here ScoreBoard.hyphenPattern pv (a :: s) i
  = if char_eqb a (N_of_ascii "-")
    then Some (1%nat, MResult [a] []) else None.
Proof.
  rewrite (char_eqb_sym a).
  change ScoreBoard.hyphenPattern with (Seq (Chr (N_of_ascii "-")) Eps).
  apply unit_literal_match_here.
Qed.

Lemma replace_hyphens (s : jsstring) :
  forall (pv : option char) (i : nat),
    ScoreBoard.replace_from ScoreBoard.hyphenPattern (lit " ") pv s i 0
    = map hyphen_to_blank s.
Proof.
  induction s as [|a s IH]; intros pv i; [reflexivity|].
  cbn [ScoreBoard.replace_from map]. rewrite hyphen_match_here.
  unfold hyphen_to_blank at 1.
  destruct (char_eqb a (N_of_ascii "-")).
  - rewrite IH. reflexivity.
  - rewrite IH. reflexivity.
Qed.

Lemma hyphen_to_blank_idem (c : char) :
  hyphen_to_blank (hyphen_to_blank c) = hyphen_to_blank c.
Proof.
  unfold hyphen_to_blank.
  destruct (char_eqb c (N_of_ascii "-")) eqn:E; [reflexivity|].
  now rewrite E.
Qed.

(** X19.  The name displayed for a transformer id is the id with every
    hyphen turned into a blank: it has the length of the id, contains no
    hyphen, and displaying it again changes nothing. *)
Theorem displayName_replaces_hyphens (transformerId : jsstring) :
  ScoreBoard.displayName transformerId = map hyphen_to_blank transformerId
  /\ len (ScoreBoard.displayName transformerId) = len transformerId
  /\ ~ In (N_of_ascii "-") (ScoreBoard.displayName transformerId)
  /\ ScoreBoard.displayName (ScoreBoard.displayName transformerId)
     = ScoreBoard.displayName transformerId.
Proof.
  assert (E : forall s, ScoreBoard.displayName s = map hyphen_to_blank s)
    by (intros s; apply replace_hyphens).
  split; [apply E|]. split; [|split].
  - rewrite E. unfold len. now rewrite length_map.
  - rewrite E. intros H. apply in_map_iff in H as (c & Hc & _).
    unfold hyphen_to_blank in Hc.
    destruct (char_eqb c (N_of_ascii "-")) eqn:Ec; [discriminate|].
    subst c. discriminate.
  - rewrite !E, map_map. apply map_ext. apply hyphen_to_blank_idem.
Qed.

Lemma displayName_example :
  ScoreBoard.displayName (lit "es6-to-es5") = lit "es6 to es5".
Proof. reflexivity. Qed.

(** * Braces, angle brackets and single units *)

Lemma unit_literal_count (c : char) (s : jsstring) :
  forall (pv : option char) (i : nat),
    Z.of_nat (List.length (match_all_from (Seq (Chr c) Eps) pv s i 0))
    = count_unit c s.
Proof.
  induction s as [|a s IH]; intros pv i; [reflexivity|].
  cbn [match_all_from count_unit]. rewrite unit_literal_match_here.
  rewrite (char_eqb_sym a c).
  destruct (char_eqb c a).
  - cbn [pred List.length]. rewrite Nat2Z.inj_succ, IH. lia.
  - rewrite IH. lia.
Qed.

Lemma count_unit_app (c : char) (a b : jsstring) :
  count_unit c (a ++ b) = count_unit c a + count_unit c b.
Proof.
  induction a as [|x a IH]; simpl; [reflexivity|]. rewrite IH. lia.
Qed.

Lemma count_unit_rev (c : char) (s : jsstring) :
  count_unit c (rev s) = count_unit c s.
Proof.
  induction s as [|x s IH]; simpl; [reflexivity|].
  rewrite count_unit_app, IH. simpl. lia.
Qed.

Lemma count_unit_trimStart (c : char) (s : jsstring) :
  is_space c = false -> count_unit c (trimStart s) = count_unit c s.
Proof.
  intros Hc. induction s as [|x s IH]; simpl; [reflexivity|].
  destruct (is_space x) eqn:Ex; [|reflexivity].
  rewrite IH.
  destruct (char_eqb x c) eqn:E; [|lia].
  apply N.eqb_eq in E. subst x. congruence.
Qed.

Lemma count_unit_trim (c : char) (s : jsstring) :
  is_space c = false -> count_unit c (trim s) = count_unit c s.
Proof.
  intros Hc. unfold trim.
  now rewrite count_unit_rev, count_unit_trimStart, count_unit_rev,
    count_unit_trimStart.
Qed.

Lemma split_lines_single (s : jsstring) :
  ~ In NL s -> forall cur, split_lines_aux cur s = [rev cur ++ s].
Proof.
  induction s as [|a s IH]; intros Hn cur; simpl.
  - now rewrite app_nil_r.
  - destruct (char_eqb a NL) eqn:E.
    + apply N.eqb_eq in E. subst a. exfalso. apply Hn. now left.
    + rewrite IH by (intros H; apply Hn; now right).
      simpl. now rewrite <- app_assoc.
Qed.

(** X20.  On code without a line feed the nesting level is the number of
    opening braces minus the number of closing braces, or 0 when that is
    negative: the level is taken at the end of each line, so braces opened
    and closed on the same line do not count. *)
Theorem single_line_nesting_level (code : jsstring) :
  ~ In NL code ->
  calculateMaxNestingLevel code
  = Z.max 0 (count_unit (N_of_ascii "{") code
             - count_unit (N_of_ascii "}") code).
Proof.
  intros Hn. unfold calculateMaxNestingLevel, split_lines.
  rewrite (split_lines_single code Hn []).
  cbn [rev app fold_left nesting_step snd].
  unfold count_matches, match_all.
  change openBracePattern with (Seq (Chr (N_of_ascii "{")) Eps).
  change closeBracePattern with (Seq (Chr (N_of_ascii "}")) Eps).
  rewrite !unit_literal_count, !count_unit_trim by reflexivity.
  reflexivity.
Qed.

Lemma single_line_nesting_level_witness :
  ~ In NL (lit "if (a) { if (b) { c(); } }")
  /\ calculateMaxNestingLevel (lit "if (a) { if (b) { c(); } }")
     = Z.max 0 (count_unit (N_of_ascii "{") (lit "if (a) { if (b) { c(); } }")
                - count_unit (N_of_ascii "}")
                    (lit "if (a) { if (b) { c(); } }")).
Proof.
  assert (H : ~ In NL (lit "if (a) { if (b) { c(); } }"))
    by (simpl; intuition discriminate).
  split; [exact H|].
  exact (single_line_nesting_level (lit "if (a) { if (b) { c(); } }") H).
Defined.

Lemma countOccurrences_unit (c : char) (s : jsstring) :
  countOccurrences s [c] = count_unit c s.
Proof.
  induction s as [|a s IH]; [reflexivity|].
  cbn [countOccurrences count_unit startsWith]. rewrite IH.
  assert (E : startsWith s [] = true) by (destruct s; reflexivity).
  now rewrite E, andb_true_r.
Qed.

(** X21.  The [jsx-to-js] bonus of two pieces of code put one after the
    other is the sum of the bonuses of the pieces: it is 5 points for each
    ["<"] removed, wherever it stands. *)
Theorem jsx_bonus_of_concatenation
    (original1 original2 transformed1 transformed2 : jsstring) :
  calculateBonusPoints (original1 ++ original2)
                       (transformed1 ++ transformed2) (lit "jsx-to-js")
  = calculateBonusPoints original1 transformed1 (lit "jsx-to-js")
    + calculateBonusPoints original2 transformed2 (lit "jsx-to-js")
  /\ calculateBonusPoints original1 transformed1 (lit "jsx-to-js")
     = 5 * (count_unit (N_of_ascii "<") original1
            - count_unit (N_of_ascii "<") transformed1).
Proof.
  unfold calculateBonusPoints. decide_switch. cbv zeta.
  change (lit "<") with [N_of_ascii "<"].
  rewrite !countOccurrences_unit, !count_unit_app. lia.
Qed.

(** ** The score of [minify] *)

(** X22.  The score of a [minify] transformation is an integer between 20
    and 75, whatever the two strings: 20 base points times a factor of at
    most 2.25, plus a bonus of at most 30. *)
Theorem minify_score_range (originalCode transformedCode : jsstring) :
  exists z : Z,
    calculateScore originalCode transformedCode (lit "minify") = of_Z z
    /\ 20 <= z <= 75.
Proof.
  destruct (complexity_factor_finite originalCode transformedCode)
    as (q & Hq & Hq1 & Hq2).
  assert (Hg : guarded_id (lit "minify")) by (right; left; reflexivity).
  assert (Hb := guarded_bonus_nonneg originalCode transformedCode _ Hg).
  assert (Hb' : calculateBonusPoints originalCode transformedCode
                                     (lit "minify") <= 30).
  { unfold calculateBonusPoints. decide_switch. cbv zeta.
    repeat match goal with
      | |- context [if ?b then _ else _] => destruct b
      end; lia. }
  eexists. split.
  - exact (score_formula _ _ _ q (guarded_not_inherited _ Hg) Hq).
  - change (table_points (lit "minify")) with 20.
    set (b := calculateBonusPoints originalCode transformedCode
                                   (lit "minify")) in *.
    assert (B0 : (0 <= inject_Z b)%Q)
      by (change 0%Q with (inject_Z 0); now rewrite <- Zle_Qle).
    assert (B1 : (inject_Z b <= 30)%Q)
      by (change 30%Q with (inject_Z 30); now rewrite <- Zle_Qle).
    change (inject_Z 20) with 20%Q.
    split.
    + apply Z.le_trans with (Qround_half_up 20); [reflexivity|].
      apply round_le. lra.
    + apply Z.le_trans with (Qround_half_up 75); [|reflexivity].
      apply round_le. lra.
Qed.

(** ** The names of the declarations *)

(** X23.  The two ways in which the module extracts the declared names -
    the second piece of each matched declaration split on white space, in
    [calculateBonusPoints], and capture 2 of each match, in
    [analyzeVariableNames] - give the same list, so the index 1 of the
    split is always defined, and the two averages of the name lengths are
    the same number. *)
Theorem declared_names_agree (code : jsstring) :
  declared_names code
  = map (fun m => capture 2 (m_caps m))
        (match_all varDeclarationPattern code)
  /\ Forall (fun name => name <> []) (declared_names code)
  /\ average_length (declared_names code)
     = avgLength (analyzeVariableNames code).
Proof.
  split; [apply declared_names_captures|]. split.
  - rewrite declared_names_captures. apply declared_name_nonempty.
  - apply average_length_avgLength.
Qed.

(** ** The average of the points *)

(** *** The integer nearest to a quotient, ties to even *)

Lemma round_half_even_ge (N D L : Z) :
  0 < D -> L * D <= N -> L <= round_half_even N D.
Proof.
  intros HD H. unfold round_half_even.
  assert (Hf : L <= N / D) by (apply Z.div_le_lower_bound; lia).
  destruct (2 * (N mod D) ?= D); [destruct (Z.even (N / D))|..]; lia.
Qed.

Lemma round_half_even_le (N D U : Z) :
  0 < D -> N <= U * D -> round_half_even N D <= U.
Proof.
  intros HD H. unfold round_half_even.
  assert (E := Z.div_mod N D ltac:(lia)).
  assert (Hr := Z.mod_pos_bound N D HD).
  set (f := N / D) in *. set (r := N mod D) in *.
  destruct (Z.compare_spec (2 * r) D); [destruct (Z.even f)|..]; nia.
Qed.

Lemma round_half_even_lt (N D U : Z) :
  0 < D -> 2 * N < (2 * U - 1) * D -> round_half_even N D < U.
Proof.
  intros HD H. unfold round_half_even.
  assert (E := Z.div_mod N D ltac:(lia)).
  assert (Hr := Z.mod_pos_bound N D HD).
  set (f := N / D) in *. set (r := N mod D) in *.
  destruct (Z.compare_spec (2 * r) D); [destruct (Z.even f)|..]; nia.
Qed.

Lemma round_half_even_gt (N D L : Z) :
  0 < D -> (2 * L + 1) * D < 2 * N -> L < round_half_even N D.
Proof.
  intros HD H. unfold round_half_even.
  assert (E := Z.div_mod N D ltac:(lia)).
  assert (Hr := Z.mod_pos_bound N D HD).
  set (f := N / D) in *. set (r := N mod D) in *.
  destruct (Z.compare_spec (2 * r) D); [destruct (Z.even f)|..]; nia.
Qed.

(** *** The exponent of a quotient *)

Lemma floor_log2_le (n d : positive) :
  (pow2 (floor_log2 n d) <= Z.pos n # d)%Q.
Proof.
  unfold floor_log2. cbv zeta.
  set (k := Z.log2 (Z.pos n) - Z.log2 (Z.pos d)).
  destruct (Qle_bool (pow2 k) (Z.pos n # d)) eqn:E.
  - now apply Qle_bool_iff.
  - clear E.
    assert (Ha := Z.log2_spec (Z.pos n) ltac:(lia)).
    assert (Hb := Z.log2_spec (Z.pos d) ltac:(lia)).
    assert (Ha0 := Z.log2_nonneg (Z.pos n)).
    assert (Hb0 := Z.log2_nonneg (Z.pos d)).
    unfold k. set (a := Z.log2 (Z.pos n)) in *.
    set (b := Z.log2 (Z.pos d)) in *.
    unfold pow2. destruct (Z.leb_spec 0 (a - b - 1)) as [Hk|Hk].
    + unfold Qle. cbn [Qnum Qden inject_Z].
      assert (Ep : 2 ^ a = 2 ^ (a - b - 1) * 2 ^ Z.succ b).
      { rewrite <- Z.pow_add_r by lia. f_equal; lia. }
      assert (Hp : 0 < 2 ^ (a - b - 1)) by (apply Z.pow_pos_nonneg; lia).
      nia.
    + unfold Qle. cbn [Qnum Qden].
      assert (Hp : 0 < 2 ^ (- (a - b - 1))) by (apply Z.pow_pos_nonneg; lia).
      rewrite Z2Pos.id by exact Hp.
      assert (Ep : 2 ^ Z.succ b = 2 ^ a * 2 ^ (- (a - b - 1))).
      { rewrite <- Z.pow_add_r by lia. f_equal; lia. }
      nia.
Qed.

(** *** [Math.round] of a fraction *)

Lemma round_half_up_unique (p : Z) (q : positive) (a : Z) :
  (2 * a - 1) * Z.pos q <= 2 * p < (2 * a + 1) * Z.pos q ->
  Qround_half_up (p # q) = a.
Proof.
  intros H. unfold Qround_half_up, Qplus, Qfloor. cbn [Qnum Qden].
  symmetry. apply Z.div_unique with (r := p * 2 + Z.pos q - Z.pos (q * 2) * a).
  - left. rewrite Pos2Z.inj_mul. lia.
  - lia.
Qed.

Lemma round_half_up_spec (p : Z) (q : positive) :
  (2 * Qround_half_up (p # q) - 1) * Z.pos q <= 2 * p
  < (2 * Qround_half_up (p # q) + 1) * Z.pos q.
Proof.
  unfold Qround_half_up, Qplus, Qfloor. cbn [Qnum Qden].
  rewrite Pos2Z.inj_mul.
  assert (E := Z.div_mod (p * 2 + 1 * Z.pos q) (Z.pos q * 2) ltac:(lia)).
  assert (Hr := Z.mod_pos_bound (p * 2 + 1 * Z.pos q) (Z.pos q * 2)
                  ltac:(lia)).
  set (f := (p * 2 + 1 * Z.pos q) / (Z.pos q * 2)) in *.
  set (r := (p * 2 + 1 * Z.pos q) mod (Z.pos q * 2)) in *.
  nia.
Qed.

(** *** [Math.round] after the rounding to binary64

    A quotient with a numerator below [2^52] has, after its rounding to
    binary64, the nearest integer of the exact quotient: the bounds
    [A - 1/2] and [A + 1/2] are multiples of the last place, and the
    quotient is away from the upper one by more than half of the last
    place. *)

Lemma rn_pos_round (n d : positive) :
  Z.pos n < 2 ^ 52 -> Z.pos d < 2 ^ 1074 ->
  exists w : Q,
    rn_pos n d = Fin w
    /\ Qround_half_up w = Qround_half_up (Z.pos n # d)
    /\ Qround_half_up (- w) = Qround_half_up (Z.neg n # d).
Proof.
  intros Hn Hd.
  assert (He := floor_log2_le n d).
  assert (HA := round_half_up_spec (Z.pos n) d).
  assert (HB := round_half_up_spec (Z.neg n) d).
  set (A := Qround_half_up (Z.pos n # d)) in *.
  set (B := Qround_half_up (Z.neg n # d)) in *.
  unfold rn_pos. cbv zeta.
  set (e := floor_log2 n d) in *.
  set (ex := Z.max (e - 52) (-1074)).
  (* the exponent of the last place is negative *)
  assert (He51 : e < 52).
  { destruct (Z.lt_ge_cases e 52) as [H|H]; [exact H|exfalso].
    unfold pow2 in He. destruct (Z.leb_spec 0 e); [|lia].
    unfold Qle in He. cbn [Qnum Qden inject_Z] in He.
    assert (Hp : 2 ^ 52 <= 2 ^ e) by (apply Z.pow_le_mono_r; lia).
    nia. }
  assert (Hex : ex < 0) by lia.
  destruct (Z.leb_spec 0 ex) as [H|_]; [lia|].
  set (P := 2 ^ (- ex)).
  set (P' := 2 ^ (- ex - 1)).
  assert (HP' : 0 < P') by (apply Z.pow_pos_nonneg; lia).
  assert (EP : P = 2 * P').
  { unfold P, P'. replace (- ex) with (Z.succ (- ex - 1)) at 1 by lia.
    apply Z.pow_succ_r. lia. }
  (* the denominator is below the inverse of the last place *)
  assert (HdP : Z.pos d < P).
  { unfold P. destruct (Z.max_spec (e - 52) (-1074)) as [[_ E]|[_ E]];
      fold ex in E; rewrite E; [exact Hd|].
    replace (- (e - 52)) with (52 - e) by lia.
    unfold pow2 in He. unfold Qle in He.
    destruct (Z.leb_spec 0 e) as [H0|H0]; cbn [Qnum Qden inject_Z] in He.
    - assert (Ep : 2 ^ 52 = 2 ^ e * 2 ^ (52 - e)).
      { rewrite <- Z.pow_add_r by lia. f_equal; lia. }
      assert (Hp : 0 < 2 ^ e) by (apply Z.pow_pos_nonneg; lia).
      nia.
    - assert (Hp : 0 < 2 ^ (- e)) by (apply Z.pow_pos_nonneg; lia).
      rewrite Z2Pos.id in He by exact Hp.
      assert (Ep : 2 ^ (52 - e) = 2 ^ 52 * 2 ^ (- e)).
      { rewrite <- Z.pow_add_r by lia. f_equal; lia. }
      nia. }
  set (m := round_half_even (Z.pos n * P) (Z.pos d)).
  assert (Hm1 : (2 * A - 1) * P' <= m).
  { apply round_half_even_ge; [lia|]. nia. }
  assert (Hm2 : m < (2 * A + 1) * P').
  { apply round_half_even_lt; [lia|]. nia. }
  assert (Hm3 : m <= (1 - 2 * B) * P').
  { apply round_half_even_le; [lia|]. nia. }
  assert (Hm4 : - (2 * B + 1) * P' < m).
  { apply round_half_even_gt; [lia|]. nia. }
  assert (Epow : pow2 ex = 1 # Z.to_pos P).
  { unfold pow2. destruct (Z.leb_spec 0 ex); [lia|reflexivity]. }
  rewrite Epow.
  assert (HPid : Z.pos (Z.to_pos P) = P) by (apply Z2Pos.id; lia).
  assert (Ew : (inject_Z m * (1 # Z.to_pos P) == m # Z.to_pos P)%Q).
  { unfold Qeq, Qmult, inject_Z. cbn [Qnum Qden]. f_equal. lia. }
  assert (Eno : Qle_bool (pow2 1024) (inject_Z m * (1 # Z.to_pos P)) = false).
  { apply not_true_is_false. intros H. apply Qle_bool_iff in H.
    rewrite Ew in H. unfold pow2 in H.
    change (0 <=? 1024) with true in H. cbv iota in H.
    unfold Qle in H. cbn [Qnum Qden inject_Z] in H. rewrite HPid in H.
    assert (Hbig : 2 ^ 54 <= 2 ^ 1024) by (apply Z.pow_le_mono_r; lia).
    assert (H54 : 2 ^ 54 = 4 * 2 ^ 52) by reflexivity.
    assert (HA1 : 2 * A + 1 <= 2 ^ 54) by nia.
    set (T := 2 ^ 1024) in *. nia. }
  rewrite Eno. unfold fin. eexists. split; [reflexivity|]. split.
  - rewrite (round_comp _ _ (Qred_correct _)), (round_comp _ _ Ew).
    apply round_half_up_unique. rewrite HPid. lia.
  - assert (Ew' : (- Qred (inject_Z m * (1 # Z.to_pos P))
                   == - m # Z.to_pos P)%Q).
    { rewrite Qred_correct, Ew. reflexivity. }
    rewrite (round_comp _ _ Ew').
    apply round_half_up_unique. rewrite HPid. lia.
Qed.

Lemma rn_round (q : Q) :
  Z.abs (Qnum q) < 2 ^ 52 -> Z.pos (Qden q) < 2 ^ 1074 ->
  exists w : Q, rn q = Fin w /\ Qround_half_up w = Qround_half_up q.
Proof.
  destruct q as [[|n|n] d]; unfold rn; cbn [Qnum Qden]; intros Hn Hd.
  - exists 0%Q. split; [reflexivity|].
    change (Qround_half_up 0%Q) with 0. symmetry.
    apply round_half_up_unique. lia.
  - destruct (rn_pos_round n d Hn Hd) as (w & E & Hw & _).
    exists w. now split.
  - destruct (rn_pos_round n d Hn Hd) as (w & E & _ & Hw).
    rewrite E. unfold neg, fin. eexists. split; [reflexivity|].
    now rewrite (round_comp _ _ (Qred_correct _)).
Qed.

Lemma Qred_bounds (q : Q) :
  Z.abs (Qnum (Qred q)) <= Z.abs (Qnum q)
  /\ Z.pos (Qden (Qred q)) <= Z.pos (Qden q).
Proof.
  destruct q as [a b]. unfold Qred.
  assert (Hg := Z.ggcd_gcd a (Z.pos b)).
  assert (Hd := Z.ggcd_correct_divisors a (Z.pos b)).
  assert (H0 := Z.gcd_nonneg a (Z.pos b)).
  destruct (Z.ggcd a (Z.pos b)) as [g [aa bb]].
  cbn [fst snd] in Hg, Hd |- *. cbn [Qnum Qden]. destruct Hd as [Ha Hb].
  rewrite <- Hg in H0.
  assert (Hbb : 0 < bb) by nia.
  rewrite Z2Pos.id by exact Hbb.
  assert (Hg1 : 1 <= g) by nia.
  split; [|nia].
  rewrite Ha, Z.abs_mul, (Z.abs_eq g) by lia.
  assert (Haa := Z.abs_nonneg aa). nia.
Qed.

Lemma div_by_positive (a : Q) (c : positive) :
  div (Fin a) (of_Z (Z.pos c)) = Fin (Qred (a * (1 # c))).
Proof.
  unfold div, of_Z, fin.
  change (Qsign (inject_Z (Z.pos c))) with Gt. reflexivity.
Qed.

(** X24.  The average shown by the score board is 0 for an empty history,
    without any division; for a history of [n > 0] entries and an integer
    total below [2^52] in absolute value it is the integer nearest to the
    quotient of the total by [n], the half rounded up: the rounding of the
    quotient to binary64 does not change it.  ([n] is the length of an
    array, below [2^32].) *)
Theorem average_points_rounding (totalScore historyLength : Z) :
  Z.abs totalScore < 2 ^ 52 -> historyLength < 2 ^ 32 ->
  (historyLength <= 0
   /\ ScoreBoard.averagePoints (of_Z totalScore) historyLength = of_Z 0)
  \/ (0 < historyLength
      /\ exists a : Z,
           ScoreBoard.averagePoints (of_Z totalScore) historyLength = of_Z a
           /\ 2 * historyLength * a <= 2 * totalScore + historyLength
              < 2 * historyLength * a + 2 * historyLength).
Proof.
  intros Ht Hh. unfold ScoreBoard.averagePoints.
  destruct (Z.gtb_spec historyLength 0) as [Hn|Hn]; [right|left; now split].
  split; [exact Hn|].
  destruct historyLength as [|p|p]; try lia.
  unfold fdiv, of_Z at 1. rewrite div_by_positive. unfold b64.
  set (x := (inject_Z totalScore * (1 # p))%Q).
  assert (Hb := Qred_bounds x).
  assert (Hx : Qnum x = totalScore * 1 /\ Qden x = (1 * p)%positive)
    by (split; reflexivity).
  destruct Hx as [Hx1 Hx2]. rewrite Hx1, Hx2 in Hb.
  assert (H32 : 2 ^ 32 <= 2 ^ 1074) by (apply Z.pow_le_mono_r; lia).
  destruct (rn_round (Qred x)) as (w & -> & Hw); [lia|lia|].
  unfold Math_round. rewrite Hw, (round_comp _ _ (Qred_correct x)).
  eexists. split; [reflexivity|].
  assert (Ex : (x == totalScore # p)%Q).
  { unfold x, Qeq, Qmult, inject_Z. cbn [Qnum Qden]. f_equal; lia. }
  rewrite (round_comp _ _ Ex).
  assert (H := round_half_up_spec totalScore p). lia.
Qed.

Lemma average_points_rounding_witness :
  Z.abs 7 < 2 ^ 52 /\ 2 < 2 ^ 32
  /\ ((2 <= 0 /\ ScoreBoard.averagePoints (of_Z 7) 2 = of_Z 0)
      \/ (0 < 2
          /\ exists a : Z,
               ScoreBoard.averagePoints (of_Z 7) 2 = of_Z a
               /\ 2 * 2 * a <= 2 * 7 + 2 < 2 * 2 * a + 2 * 2)).
Proof.
  assert (H1 : Z.abs 7 < 2 ^ 52) by reflexivity.
  assert (H2 : 2 < 2 ^ 32) by reflexivity.
  split; [exact H1|]. split; [exact H2|].
  exact (average_points_rounding 7 2 H1 H2).
Defined.

(** The bound on the total is needed: from [2^52] on, the rounding of the
    quotient can reach the half and [Math.round] the next integer.  The
    quotient of 8071052515576238 by 13 is 620850193505864.46... *)
Lemma average_points_large_total :
  ScoreBoard.averagePoints (of_Z 8071052515576238) 13
  = of_Z 620850193505865.
Proof.
  vm_compute. reflexivity.
Qed.

(** ** The leaderboard is determined by its three properties *)

Lemma getLeaderboard_unique_witness :
  Forall is_number small_board
  /\ Permutation small_board small_board_sorted
  /\ StronglySorted score_ge small_board_sorted
  /\ (forall v : num,
        filter (fun e => num_eqb (score e) v) small_board_sorted
        = filter (fun e => num_eqb (score e) v) small_board)
  /\ small_board_sorted = getLeaderboard small_board.
Proof.
  assert (H1 : Forall is_number small_board)
    by (repeat constructor; discriminate).
  assert (H2 : Permutation small_board small_board_sorted)
    by apply perm_swap.
  assert (H3 : StronglySorted score_ge small_board_sorted)
    by (repeat constructor).
  assert (H4 : forall v : num,
             filter (fun e => num_eqb (score e) v) small_board_sorted
             = filter (fun e => num_eqb (score e) v) small_board).
  { intros v. unfold small_board, small_board_sorted. cbn [filter score].
    destruct (num_eqb (of_Z 5) v) eqn:E5; [|now destruct (num_eqb (of_Z 20) v)].
    now rewrite (ltb_not_both_equal (of_Z 5) (of_Z 20) v eq_refl E5). }
  split; [exact H1|]. split; [exact H2|]. split; [exact H3|].
  split; [exact H4|].
  exact (getLeaderboard_unique nat small_board small_board_sorted H1 H2 H3 H4).
Defined.
